(** * Sokoban PCG core: solver, deadlock classifier and level validity

    A shallow embedding of [pcg_generator.py] (state model, deadlock
    classifier, BFS solver, reverse-play generator, fallback bank) and of
    [movePlayer] from [sokoban.py] with the parts of [Level.py] it uses.

    Grids are Python lists of lists of one-character strings: [list (list
    ascii)].  Coordinates are Python integers: [Z].  Python [set]s are
    [gset]s, Python lists and deques are lists.

    Every subscript [matrix[r][c]] of [pcg_generator.py] is guarded by a
    test [0 <= r < len(matrix) and 0 <= c < len(matrix[0])] (or comes out of
    an [enumerate] scan), so on the rectangular grids of the data model no
    subscript is out of range.  [cell_at] reads such a guarded subscript; it
    yields the character NUL, which is none of the seven cell codes, where a
    ragged grid would make Python raise [IndexError]. *)

From Stdlib Require Import ZArith Ascii String Lia.
From stdpp Require Import base option list gmap strings sorting.

Local Open Scope Z_scope.

(** ** Cell codes *)

Definition WALL : ascii := "#".
Definition FLOOR : ascii := " ".
Definition PLAYER : ascii := "@".
Definition BOX : ascii := "$".
Definition GOAL : ascii := ".".
Definition BOX_ON_GOAL : ascii := "*".
Definition PLAYER_ON_GOAL : ascii := "+".

Abbreviation matrix := (list (list ascii)).
Abbreviation pos := (Z * Z)%type.

(** [ch in [a, b, ...]] *)
Definition char_in (ch : ascii) (l : list ascii) : bool := bool_decide (ch ∈ l).

Definition is_player_char (ch : ascii) : bool := char_in ch [PLAYER; PLAYER_ON_GOAL].
Definition is_box_char (ch : ascii) : bool := char_in ch [BOX; BOX_ON_GOAL].
Definition is_goal_char (ch : ascii) : bool :=
  char_in ch [GOAL; BOX_ON_GOAL; PLAYER_ON_GOAL].
Definition is_free_char (ch : ascii) : bool := char_in ch [FLOOR; GOAL].

(** ** Grid access *)

(** The cell at row [r], column [c], when the grid has one. *)
Definition get (m : matrix) (r c : Z) : option ascii :=
  if decide (0 ≤ r ∧ 0 ≤ c)
  then m !! Z.to_nat r ≫= λ row, row !! Z.to_nat c
  else None.

(** [matrix[r][c]] under a bounds guard. *)
Definition cell_at (m : matrix) (r c : Z) : ascii :=
  default "000"%char (get m r c).

(** [matrix[r][c] = v] under a bounds guard. *)
Definition set_cell (m : matrix) (r c : Z) (v : ascii) : matrix :=
  alter (λ row, <[Z.to_nat c := v]> row) (Z.to_nat r) m.

(** [len(matrix)] and [len(matrix[0])]. *)
Definition n_rows (m : matrix) : Z := Z.of_nat (length m).
Definition n_cols (m : matrix) : Z := Z.of_nat (length (default [] (m !! 0%nat))).

Definition in_bounds (rows cols : Z) (r c : Z) : bool :=
  bool_decide (0 ≤ r < rows ∧ 0 ≤ c < cols).

(** Every row as long as the first one. *)
Definition rectangular (m : matrix) : Prop :=
  ∀ row, row ∈ m → Z.of_nat (length row) = n_cols m.

(** [enumerate(l)], counting from [i]. *)
Fixpoint enumerate_from {A} (i : Z) (l : list A) : list (Z * A) :=
  match l with
  | [] => []
  | x :: l' => (i, x) :: enumerate_from (i + 1) l'
  end.
Definition enumerate {A} (l : list A) : list (Z * A) := enumerate_from 0 l.

(** The four directions, in the order every loop of the source lists them:
    up, down, left, right. *)
Definition DIRS : list (Z * Z) := [(-1, 0); (1, 0); (0, -1); (0, 1)].

(** ** State model *)

(** [get_player_and_boxes_positions]: the last player marker of the scan
    wins; boxes are collected in row-major order. *)
Definition scan_cell (r : Z) (st : option pos * list pos) (x : Z * ascii)
  : option pos * list pos :=
  let '(c, char) := x in
  if is_player_char char then (Some (r, c), st.2)
  else if is_box_char char then (st.1, st.2 ++ [(r, c)])
  else st.

Definition scan_row (st : option pos * list pos) (x : Z * list ascii)
  : option pos * list pos :=
  let '(r, row) := x in foldl (scan_cell r) st (enumerate row).

Definition get_player_and_boxes_positions (m : matrix) : option pos * list pos :=
  foldl scan_row (None, []) (enumerate m).

(** [get_goal_positions] *)
Definition goal_cell (r : Z) (acc : list pos) (x : Z * ascii) : list pos :=
  let '(c, char) := x in
  if is_goal_char char then acc ++ [(r, c)] else acc.

Definition goal_row (acc : list pos) (x : Z * list ascii) : list pos :=
  let '(r, row) := x in foldl (goal_cell r) acc (enumerate row).

Definition get_goal_positions (m : matrix) : list pos :=
  foldl goal_row [] (enumerate m).

(** [is_level_solved]: both arguments are lists at every call site, so both
    are converted to sets. *)
Definition is_level_solved (box_positions goal_positions : list pos) : bool :=
  if bool_decide (box_positions = []) || bool_decide (goal_positions = [])
  then false
  else
    let box_set : gset pos := list_to_set box_positions in
    let goal_set : gset pos := list_to_set goal_positions in
    bool_decide (size box_set = size goal_set) && bool_decide (box_set = goal_set).

(** ** Deadlock classifier *)

(** *** Simple deadlocks *)

Definition clean_char (ch : ascii) : ascii :=
  if bool_decide (ch = BOX) then FLOOR
  else if bool_decide (ch = BOX_ON_GOAL) then GOAL
  else ch.

(** The copy of the grid without boxes, built cell by cell over
    [range(rows)] and [range(cols)]. *)
Definition clean_matrix_of (m : matrix) (rows cols : Z) : matrix :=
  (λ r, (λ c, clean_char (cell_at m r c)) <$> seqZ 0 cols) <$> seqZ 0 rows.

Definition OPEN_CHARS : list ascii := [FLOOR; GOAL; PLAYER; PLAYER_ON_GOAL].

(** One direction of the reverse search: the cell a box would come from and
    the cell the pushing player would stand on. *)
Definition pull_dir (clean : matrix) (rows cols r c : Z)
    (st : list pos * gset pos) (d : Z * Z) : list pos * gset pos :=
  let '(queue, visited) := st in
  let '(dr, dc) := d in
  let box_r := r + dr in
  let box_c := c + dc in
  let player_r := box_r + dr in
  let player_c := box_c + dc in
  if negb (in_bounds rows cols box_r box_c && in_bounds rows cols player_r player_c)
  then st
  else if char_in (cell_at clean box_r box_c) OPEN_CHARS
          && char_in (cell_at clean player_r player_c) OPEN_CHARS
          && bool_decide ((box_r, box_c) ∉ visited)
  then (queue ++ [(box_r, box_c)], {[(box_r, box_c)]} ∪ visited)
  else st.

(** [while queue:] of the reverse search.  A cell enters the queue when it
    enters [visited], so the loop body runs at most once per cell; [fuel]
    counts the runs. *)
Fixpoint pull_search (fuel : nat) (clean : matrix) (rows cols : Z)
    (queue : list pos) (visited reachable_squares : gset pos) : gset pos :=
  match fuel with
  | O => reachable_squares
  | S fuel' =>
      match queue with
      | [] => reachable_squares
      | (r, c) :: queue' =>
          let reachable_squares := {[(r, c)]} ∪ reachable_squares in
          let '(queue'', visited') :=
            foldl (pull_dir clean rows cols r c) (queue', visited) DIRS in
          pull_search fuel' clean rows cols queue'' visited' reachable_squares
      end
  end.

Definition search_fuel (rows cols : Z) : nat := S (Z.to_nat (rows * cols)).

(** The part of [detect_simple_deadlocks] that works on [clean_matrix]: the
    reverse search from every goal, then the cells it did not reach. *)
Definition simple_deadlock_squares (clean : matrix) (rows cols : Z)
    (goal_positions : list pos) : gset pos :=
  let reachable_squares :=
    foldl (λ reachable goal,
             pull_search (search_fuel rows cols) clean rows cols
                         [goal] {[goal]} reachable)
          ∅ goal_positions in
  list_to_set
    (filter (λ p : pos,
               Is_true
                 (char_in (cell_at clean p.1 p.2)
                          [FLOOR; GOAL; PLAYER; PLAYER_ON_GOAL; BOX; BOX_ON_GOAL]
                  && bool_decide (p ∉ reachable_squares)
                  && bool_decide (p ∉ goal_positions)))
            (r ← seqZ 0 rows; c ← seqZ 0 cols; [(r, c)])).

Definition detect_simple_deadlocks (m : matrix) : gset pos :=
  let rows := n_rows m in
  let cols := n_cols m in
  let goal_positions := get_goal_positions m in
  let clean_matrix := clean_matrix_of m rows cols in
  simple_deadlock_squares clean_matrix rows cols goal_positions.

(** *** Freeze deadlocks *)

Inductive axis := Horizontal | Vertical.

(** One neighbour of a box in [is_box_blocked] (the source repeats these
    lines for left, right, up and down): blocked by the edge of the grid or
    a wall, or by a box that is blocked on the other axis; [rec] is the
    recursive call. *)
Definition blocked_side (m : matrix)
    (rec : Z → Z → axis → gset pos → bool * gset pos)
    (edge : bool) (nr nc : Z) (perp : axis) (checked_boxes : gset pos)
  : bool * gset pos :=
  if edge || bool_decide (cell_at m nr nc = WALL) then (true, checked_boxes)
  else if char_in (cell_at m nr nc) [BOX; BOX_ON_GOAL]
  then rec nr nc perp checked_boxes
  else (false, checked_boxes).

(** [is_box_blocked], with the shared mutable set [checked_boxes] threaded
    through the calls.  A call recurses only into a box that is not yet in
    [checked_boxes] and adds itself first, so the nesting is bounded by the
    number of cells; [fuel] is that bound. *)
Fixpoint is_box_blocked (fuel : nat) (m : matrix) (rows cols : Z)
    (goal_positions : list pos) (box_r box_c : Z) (ax : axis)
    (checked_boxes : gset pos) : bool * gset pos :=
  match fuel with
  | O => (false, checked_boxes)
  | S fuel' =>
      if bool_decide ((box_r, box_c) ∈ checked_boxes) then (true, checked_boxes)
      else
        let checked_boxes := {[(box_r, box_c)]} ∪ checked_boxes in
        if bool_decide ((box_r, box_c) ∈ goal_positions) then (false, checked_boxes)
        else
          let rec := is_box_blocked fuel' m rows cols goal_positions in
          match ax with
          | Horizontal =>
              let '(left_blocked, checked_boxes) :=
                blocked_side m rec (bool_decide (box_c = 0))
                             box_r (box_c - 1) Vertical checked_boxes in
              let '(right_blocked, checked_boxes) :=
                blocked_side m rec (bool_decide (box_c = cols - 1))
                             box_r (box_c + 1) Vertical checked_boxes in
              (left_blocked && right_blocked, checked_boxes)
          | Vertical =>
              let '(up_blocked, checked_boxes) :=
                blocked_side m rec (bool_decide (box_r = 0))
                             (box_r - 1) box_c Horizontal checked_boxes in
              let '(down_blocked, checked_boxes) :=
                blocked_side m rec (bool_decide (box_r = rows - 1))
                             (box_r + 1) box_c Horizontal checked_boxes in
              (up_blocked && down_blocked, checked_boxes)
          end
  end.

Definition freeze_fuel (m : matrix) : nat := S (S (length (concat m))).

(** Is the box at [p] blocked on both axes?  Each top-level call of
    [is_box_blocked] starts from a fresh [checked_boxes]. *)
Definition box_frozen (m : matrix) (goal_positions : list pos) (p : pos) : bool :=
  let horizontal_blocked :=
    (is_box_blocked (freeze_fuel m) m (n_rows m) (n_cols m) goal_positions
                    p.1 p.2 Horizontal ∅).1 in
  let vertical_blocked :=
    (is_box_blocked (freeze_fuel m) m (n_rows m) (n_cols m) goal_positions
                    p.1 p.2 Vertical ∅).1 in
  horizontal_blocked && vertical_blocked.

Definition detect_freeze_deadlocks (m : matrix)
    (box_positions goal_positions : list pos) : bool :=
  existsb (λ p, if bool_decide (p ∈ goal_positions) then false
                else box_frozen m goal_positions p)
          box_positions.

(** *** Corral deadlocks *)

(** One direction of a flood fill over the cells whose code satisfies
    [passable] (the player's reach in [detect_corral_deadlocks], the open
    cells in [check_level_connectivity]). *)
Definition walk_dir (passable : ascii → bool) (m : matrix) (rows cols r c : Z)
    (st : list pos * gset pos) (d : Z * Z) : list pos * gset pos :=
  let '(queue, reachable) := st in
  let '(dr, dc) := d in
  let nr := r + dr in
  let nc := c + dc in
  if in_bounds rows cols nr nc
     && passable (cell_at m nr nc)
     && bool_decide ((nr, nc) ∉ reachable)
  then (queue ++ [(nr, nc)], {[(nr, nc)]} ∪ reachable)
  else st.

(** [while queue:] of a flood fill; as in [pull_search], [fuel] counts the
    runs of the loop body, at most one per cell. *)
Fixpoint walk_search (fuel : nat) (passable : ascii → bool) (m : matrix)
    (rows cols : Z) (queue : list pos) (reachable : gset pos) : gset pos :=
  match fuel with
  | O => reachable
  | S fuel' =>
      match queue with
      | [] => reachable
      | (r, c) :: queue' =>
          let '(queue'', reachable') :=
            foldl (walk_dir passable m rows cols r c) (queue', reachable) DIRS in
          walk_search fuel' passable m rows cols queue'' reachable'
      end
  end.

Definition detect_corral_deadlocks (m : matrix) (player_pos : pos)
    (box_positions goal_positions : list pos) : bool :=
  let rows := n_rows m in
  let cols := n_cols m in
  let reachable :=
    walk_search (search_fuel rows cols)
                (λ ch, negb (char_in ch [WALL; BOX; BOX_ON_GOAL]))
                m rows cols [player_pos] {[player_pos]} in
  existsb (λ b : pos,
             if bool_decide (b ∈ goal_positions) then false
             else
               let box_accessible :=
                 existsb (λ d : Z * Z,
                            let nr := b.1 + d.1 in
                            let nc := b.2 + d.2 in
                            in_bounds rows cols nr nc
                            && bool_decide ((nr, nc) ∈ reachable))
                         DIRS in
               negb box_accessible)
          box_positions.

(** *** The composed verdict *)

Definition has_deadlock (m : matrix) : bool :=
  let '(player_pos, box_positions) := get_player_and_boxes_positions m in
  let goal_positions := get_goal_positions m in
  match player_pos with
  | None => true
  | Some player_pos =>
      if bool_decide (box_positions = []) || bool_decide (goal_positions = [])
      then true
      else
        let simple_deadlock_squares := detect_simple_deadlocks m in
        if existsb (λ b, bool_decide (b ∈ simple_deadlock_squares)
                         && bool_decide (b ∉ goal_positions))
                   box_positions
        then true
        else if detect_freeze_deadlocks m box_positions goal_positions then true
        else if detect_corral_deadlocks m player_pos box_positions goal_positions
        then true
        else false
  end.

(** ** Level validity *)

Definition count_boxes_on_goals (box_positions goal_positions : list pos) : nat :=
  length (filter (λ box_pos, box_pos ∈ goal_positions) box_positions).

Definition is_valid_level (m : matrix) : bool :=
  let '(player_pos, box_positions) := get_player_and_boxes_positions m in
  let goal_positions := get_goal_positions m in
  if bool_decide (player_pos = None) || bool_decide (box_positions = [])
     || bool_decide (goal_positions = [])
  then false
  else if bool_decide (length box_positions ≠ length goal_positions) then false
  else
    let boxes_on_goals := count_boxes_on_goals box_positions goal_positions in
    if bool_decide (boxes_on_goals = length box_positions) then false
    else if bool_decide (1 < boxes_on_goals)%nat then false
    else if has_deadlock m then false
    else true.

(** ** BFS solver *)

(** Moves, in the order the solver tries them. *)
Inductive move := U | D | L | R.

Definition MOVES : list move := [U; D; L; R].

Definition delta (mv : move) : Z * Z :=
  match mv with
  | U => (-1, 0)
  | D => (1, 0)
  | L => (0, -1)
  | R => (0, 1)
  end.

#[global] Instance move_eq_dec : EqDecision move.
Proof. solve_decision. Defined.

(** [list.remove(x)]: drops the first occurrence. *)
Fixpoint remove_first (x : pos) (l : list pos) : list pos :=
  match l with
  | [] => []
  | y :: l' => if decide (x = y) then l' else y :: remove_first x l'
  end.

(** Order of Python tuples of two integers. *)
Definition pos_le (p q : pos) : Prop := p.1 < q.1 ∨ (p.1 = q.1 ∧ p.2 ≤ q.2).

#[global] Instance pos_le_dec : RelDecision pos_le.
Proof. intros p q. unfold pos_le. apply _. Defined.

(** [sorted(box_positions)] *)
Definition sorted (l : list pos) : list pos := merge_sort pos_le l.

(** The body of the solver's direction loop up to [valid_move]: the grid,
    player position and box list after the move, or [None] when the solver
    [continue]s or leaves [valid_move] false. *)
Definition solver_move (current_matrix : matrix) (current_player_pos : pos)
    (current_box_positions : list pos) (mv : move)
  : option (matrix * pos * list pos) :=
  let '(dr, dc) := delta mv in
  let new_player_r := current_player_pos.1 + dr in
  let new_player_c := current_player_pos.2 + dc in
  let next_matrix := current_matrix in
  let rows := n_rows next_matrix in
  let cols := n_cols next_matrix in
  let leave (next_matrix : matrix) : matrix :=
    set_cell next_matrix current_player_pos.1 current_player_pos.2
      (if bool_decide (cell_at next_matrix current_player_pos.1 current_player_pos.2
                       = PLAYER_ON_GOAL)
       then GOAL else FLOOR) in
  if negb (in_bounds rows cols new_player_r new_player_c) then None
  else
    let char_at_new_pos := cell_at next_matrix new_player_r new_player_c in
    if char_in char_at_new_pos [FLOOR; GOAL] then
      let next_matrix :=
        set_cell next_matrix new_player_r new_player_c
          (if bool_decide (char_at_new_pos = GOAL) then PLAYER_ON_GOAL else PLAYER) in
      let next_matrix := leave next_matrix in
      Some (next_matrix, (new_player_r, new_player_c), current_box_positions)
    else if char_in char_at_new_pos [BOX; BOX_ON_GOAL] then
      let pushed_box_r := new_player_r + dr in
      let pushed_box_c := new_player_c + dc in
      if negb (in_bounds rows cols pushed_box_r pushed_box_c) then None
      else
        let char_beyond_box := cell_at next_matrix pushed_box_r pushed_box_c in
        if char_in char_beyond_box [FLOOR; GOAL] then
          let new_box_positions :=
            remove_first (new_player_r, new_player_c) current_box_positions
            ++ [(pushed_box_r, pushed_box_c)] in
          let next_matrix :=
            set_cell next_matrix pushed_box_r pushed_box_c
              (if bool_decide (char_beyond_box = GOAL) then BOX_ON_GOAL else BOX) in
          let next_matrix :=
            set_cell next_matrix new_player_r new_player_c
              (if bool_decide (char_at_new_pos = BOX_ON_GOAL)
               then PLAYER_ON_GOAL else PLAYER) in
          let next_matrix := leave next_matrix in
          Some (next_matrix, (new_player_r, new_player_c), new_box_positions)
        else None
    else None.

Abbreviation state_key := (pos * list pos)%type.

(** State of the direction loop: the solver has returned a path, or goes on
    with its queue and visited set. *)
Inductive scan_result :=
  | Found (path : list move)
  | Going (queue : list (matrix * list move)) (visited : gset state_key).

(** One round of [for dr, dc, move_char in ...]. *)
Definition try_move (goal_positions : list pos) (current_matrix : matrix)
    (current_player_pos : pos) (current_box_positions : list pos)
    (current_path : list move) (acc : scan_result) (mv : move) : scan_result :=
  match acc with
  | Found path => Found path
  | Going queue visited =>
      match solver_move current_matrix current_player_pos current_box_positions mv with
      | None => acc
      | Some (next_matrix, new_player_pos, new_box_positions) =>
          let key : state_key := (new_player_pos, sorted new_box_positions) in
          if bool_decide (key ∈ visited) then acc
          else if is_level_solved new_box_positions goal_positions
          then Found (current_path ++ [mv])
          else if has_deadlock next_matrix then acc
          else Going (queue ++ [(next_matrix, current_path ++ [mv])])
                     ({[key]} ∪ visited)
      end
  end.

(** [while queue and iterations < max_iterations]; [fuel] is the number of
    iterations left.  Every queued grid holds a player marker, so the scan
    of a dequeued grid finds one. *)
Fixpoint bfs_loop (fuel : nat) (goal_positions : list pos)
    (queue : list (matrix * list move)) (visited : gset state_key)
  : option (list move) :=
  match fuel with
  | O => None
  | S fuel' =>
      match queue with
      | [] => None
      | (current_matrix, current_path) :: queue' =>
          match get_player_and_boxes_positions current_matrix with
          | (None, _) => None
          | (Some current_player_pos, current_box_positions) =>
              match foldl (try_move goal_positions current_matrix current_player_pos
                                    current_box_positions current_path)
                          (Going queue' visited) MOVES with
              | Found path => Some path
              | Going queue'' visited' => bfs_loop fuel' goal_positions queue'' visited'
              end
          end
      end
  end.

(** [solve_sokoban_bfs(initial_matrix, max_iterations)]; [None] is Python's
    [None]. *)
Definition solve_sokoban_bfs (initial_matrix : matrix) (max_iterations : Z)
  : option (list move) :=
  let '(initial_player_pos, initial_box_positions) :=
    get_player_and_boxes_positions initial_matrix in
  let goal_positions := get_goal_positions initial_matrix in
  match initial_player_pos with
  | None => None
  | Some initial_player_pos =>
      if bool_decide (initial_box_positions = []) || bool_decide (goal_positions = [])
      then None
      else if is_level_solved initial_box_positions goal_positions then Some []
      else
        bfs_loop (Z.to_nat max_iterations) goal_positions
                 [(initial_matrix, [])]
                 {[(initial_player_pos, sorted initial_box_positions)]}
  end.

Definition DEFAULT_MAX_ITERATIONS : Z := 100000.

(** The transition the solver explores, as a function of the grid alone:
    the solver rescans every dequeued grid for the player and the boxes. *)
Definition apply_move (m : matrix) (mv : move) : option matrix :=
  match get_player_and_boxes_positions m with
  | (None, _) => None
  | (Some player_pos, box_positions) =>
      (λ x, x.1.1) <$> solver_move m player_pos box_positions mv
  end.

(** Replaying a move sequence; [None] when a move is rejected. *)
Fixpoint replay (m : matrix) (path : list move) : option matrix :=
  match path with
  | [] => Some m
  | mv :: path' => apply_move m mv ≫= λ m', replay m' path'
  end.

Definition is_solved (m : matrix) : bool :=
  is_level_solved (get_player_and_boxes_positions m).2 (get_goal_positions m).

(** ** Fallback bank *)

Definition fallback_0 : matrix :=
  [
    ["#";"#";"#";"#";"#"];
    ["#";"@";" ";" ";"#"];
    ["#";" ";"$";".";"#"];
    ["#";" ";" ";" ";"#"];
    ["#";"#";"#";"#";"#"] ]%char.

Definition fallback_solution_0 : list move :=
  [D; R].

Definition fallback_1 : matrix :=
  [
    ["#";"#";"#";"#";"#";"#"];
    ["#";" ";" ";" ";" ";"#"];
    ["#";"@";"$";" ";".";"#"];
    ["#";" ";"$";" ";".";"#"];
    ["#";" ";" ";" ";" ";"#"];
    ["#";"#";"#";"#";"#";"#"] ]%char.

Definition fallback_solution_1 : list move :=
  [R; R; D; R; U; L; D; R].

Definition fallback_2 : matrix :=
  [
    ["#";"#";"#";"#";"#";"#";"#"];
    ["#";" ";" ";" ";" ";" ";"#"];
    ["#";" ";"$";" ";"$";" ";"#"];
    ["#";" ";".";"@";".";"$";"#"];
    ["#";" ";" ";" ";" ";".";"#"];
    ["#";" ";" ";" ";" ";" ";"#"];
    ["#";"#";"#";"#";"#";"#";"#"] ]%char.

Definition fallback_solution_2 : list move :=
  [L; U; R; R; D; L; L; U; R; R; D; R].

Definition fallback_3 : matrix :=
  [
    ["#";"#";"#";"#";"#";"#";"#"];
    ["#";" ";" ";" ";" ";" ";"#"];
    ["#";" ";"#";"#";"#";" ";"#"];
    ["#";"@";"$";" ";"$";".";"#"];
    ["#";" ";"#";"#";"#";".";"#"];
    ["#";" ";" ";" ";" ";".";"#"];
    ["#";"#";"#";"#";"#";"#";"#"] ]%char.

Definition fallback_solution_3 : list move :=
  [R; R; R; U; L; L; D; R; R; U; L; D; L; U; R; R; D].

Definition fallback_4 : matrix :=
  [
    ["#";"#";"#";"#";"#";"#";"#";"#"];
    ["#";" ";" ";"#";" ";" ";" ";"#"];
    ["#";" ";"$";"#";"$";" ";" ";"#"];
    ["#";" ";" ";" ";" ";" ";" ";"#"];
    ["#";"#";"#";" ";"#";"#";" ";"#"];
    ["#";".";".";".";"@";" ";" ";"#"];
    ["#";" ";" ";" ";" ";" ";" ";"#"];
    ["#";"#";"#";"#";"#";"#";"#";"#"] ]%char.

Definition fallback_solution_4 : list move :=
  [U; U; U; L; L; D; R; U; L; D; D; R; U; U; R; R; R; D; L; U; L; D; L; U; R; D].

Definition FALLBACK_LEVELS : list (matrix * list move) :=
  [ (fallback_0, fallback_solution_0);
    (fallback_1, fallback_solution_1);
    (fallback_2, fallback_solution_2);
    (fallback_3, fallback_solution_3);
    (fallback_4, fallback_solution_4) ].

Definition emergency_level : matrix :=
  [ ["#";"#";"#";"#";"#"];
    ["#";"@";"$";".";"#"];
    ["#";" ";" ";" ";"#"];
    ["#";"#";"#";"#";"#"] ]%char.

Definition emergency_solution : list move := [R; R].

(** * Definitions used by the statements and proofs *)

(** The positions of the cells that satisfy [p], in row-major order. *)
Definition row_positions (p : ascii → bool) (r : Z) (cells : list (Z * ascii))
  : list pos :=
  (λ x, (r, x.1)) <$> filter (λ x, p x.2) cells.

Definition positions_where (p : ascii → bool) (m : matrix) : list pos :=
  enumerate m ≫= λ x, row_positions p x.1 (enumerate x.2).

Definition pstep (p : pos) (mv : move) : pos :=
  (p.1 + (delta mv).1, p.2 + (delta mv).2).

Definition on_goal (ch : ascii) (yes no : ascii) : ascii :=
  if is_goal_char ch then yes else no.

(** What one accepted move reads and writes. *)
Inductive move_effect (m : matrix) (p : pos) (bp : list pos) (mv : move)
    (m' : matrix) (bp' : list pos) : Prop :=
  | effect_step chp chq :
      get m p.1 p.2 = Some chp → is_player_char chp →
      get m (pstep p mv).1 (pstep p mv).2 = Some chq →
      chq ∈ [FLOOR; GOAL] →
      bp' = bp →
      (∀ r c, get m' r c =
              if decide ((r, c) = p) then Some (on_goal chp GOAL FLOOR)
              else if decide ((r, c) = pstep p mv)
                   then Some (on_goal chq PLAYER_ON_GOAL PLAYER)
              else get m r c) →
      move_effect m p bp mv m' bp'
  | effect_push chp chq ch2 :
      get m p.1 p.2 = Some chp → is_player_char chp →
      get m (pstep p mv).1 (pstep p mv).2 = Some chq →
      chq ∈ [BOX; BOX_ON_GOAL] →
      in_bounds (n_rows m) (n_cols m)
                (pstep (pstep p mv) mv).1 (pstep (pstep p mv) mv).2 →
      get m (pstep (pstep p mv) mv).1 (pstep (pstep p mv) mv).2 = Some ch2 →
      ch2 ∈ [FLOOR; GOAL] →
      bp' = remove_first (pstep p mv) bp ++ [pstep (pstep p mv) mv] →
      (∀ r c, get m' r c =
              if decide ((r, c) = p) then Some (on_goal chp GOAL FLOOR)
              else if decide ((r, c) = pstep p mv)
                   then Some (on_goal chq PLAYER_ON_GOAL PLAYER)
              else if decide ((r, c) = pstep (pstep p mv) mv)
                   then Some (on_goal ch2 BOX_ON_GOAL BOX)
              else get m r c) →
      move_effect m p bp mv m' bp'.

Definition pback (p : pos) (mv : move) : pos :=
  (p.1 - (delta mv).1, p.2 - (delta mv).2).

(** The cell a box at [q] would move into under [mv] can never take it. *)
Definition hard_blocked (m : matrix) (F : gset pos) (q : pos) (mv : move) : Prop :=
  ¬ in_bounds (n_rows m) (n_cols m) (pstep q mv).1 (pstep q mv).2
  ∨ cell_at m (pstep q mv).1 (pstep q mv).2 = WALL
  ∨ pstep q mv ∈ F.

(** ... or the cell the player would push from is taken by a box of [F]. *)
Definition dir_blocked (m : matrix) (F : gset pos) (q : pos) (mv : move) : Prop :=
  hard_blocked m F q mv ∨ pback q mv ∈ F.

(** A set of boxes each of which is blocked in all four directions by
    walls, the edge of the grid, or boxes of the set. *)
Definition frozen_set (m : matrix) (F : gset pos) : Prop :=
  ∀ q, q ∈ F → is_box_char (cell_at m q.1 q.2) ∧ ∀ mv, dir_blocked m F q mv.

#[global] Instance axis_eq_dec : EqDecision axis.
Proof. solve_decision. Defined.

Definition move_axis (mv : move) : axis :=
  match mv with U | D => Vertical | L | R => Horizontal end.

Definition perp (ax : axis) : axis :=
  match ax with Horizontal => Vertical | Vertical => Horizontal end.

Definition opposite (mv : move) : move :=
  match mv with U => D | D => U | L => R | R => L end.

Definition stuck (m : matrix) (F : gset pos) (q : pos) : Prop :=
  is_box_char (cell_at m q.1 q.2) ∧ ∀ mv, dir_blocked m F q mv.

(** A call that answers [True] only grows [checked_boxes]; the box it was
    asked about is hard-blocked along the axis asked, and every box it
    added below that one is stuck, in any set that holds the final
    [checked_boxes]. *)
Definition call_ok (m : matrix) (o : pos) (ax : axis)
    (checked checked' : gset pos) : Prop :=
  checked ⊆ checked' ∧ o ∈ checked' ∧
  ∀ F : gset pos, checked' ⊆ F →
    (o ∉ checked → ∀ mv, move_axis mv = ax → hard_blocked m F o mv)
    ∧ (∀ q, q ∈ checked' → q ∉ checked → q ≠ o → stuck m F q).

(** A box walled in on all four sides, with the player free to move. *)
Definition frozen_pocket : matrix :=
  [ ["#";"#";"#";"#";"#"];
    ["#";"$";"#";".";"#"];
    ["#";"#";"#";"@";"#"];
    ["#";"#";"#";"#";"#"] ]%char.

Definition path_ok (m0 : matrix) (entry : matrix * list move) : Prop :=
  replay m0 entry.2 = Some entry.1.

Definition solves (m0 : matrix) (goal_positions : list pos) (path : list move) : Prop :=
  ∃ m', replay m0 path = Some m'
        ∧ is_level_solved (get_player_and_boxes_positions m').2 goal_positions = true.

Definition result_sound (m0 : matrix) (goal_positions : list pos)
    (res : scan_result) : Prop :=
  match res with
  | Found path => solves m0 goal_positions path
  | Going queue _ => Forall (path_ok m0) queue
  end.

(** The number of cells of the grid whose code satisfies [p]. *)
Definition count_cells (p : ascii → bool) (m : matrix) : nat :=
  length (filter (λ ch, p ch) (concat m)).

Definition is_char (a : ascii) (ch : ascii) : bool := bool_decide (ch = a).

(** A grid with two player markers. *)
Definition two_players : matrix :=
  [ ["#";"#";"#";"#";"#"];
    ["#";"@";"$";".";"#"];
    ["#";" ";" ";"@";"#"];
    ["#";"#";"#";"#";"#"] ]%char.

(** A valid grid with one of its two boxes on a goal. *)
Definition one_box_home : matrix :=
  [ ["#";"#";"#";"#";"#";"#"];
    ["#";" ";" ";" ";" ";"#"];
    ["#";"@";"$";" ";".";"#"];
    ["#";" ";" ";"*";" ";"#"];
    ["#";" ";" ";" ";" ";"#"];
    ["#";"#";"#";"#";"#";"#"] ]%char.

Definition two_boxes_one_goal : matrix :=
  [ ["#";"#";"#";"#";"#";"#"];
    ["#";"@";"$";" ";".";"#"];
    ["#";" ";"$";" ";" ";"#"];
    ["#";"#";"#";"#";"#";"#"] ]%char.

(** The fields of a [Level] object. *)
Record Level := {
  lv_matrix : matrix;
  lv_history : list matrix;
  lv_is_pcg : bool;
  lv_solution_path : list move;
  lv_original_matrix : matrix;
}.

Definition with_matrix (lv : Level) (m : matrix) (h : list matrix) : Level :=
  {| lv_matrix := m; lv_history := h; lv_is_pcg := lv_is_pcg lv;
     lv_solution_path := lv_solution_path lv;
     lv_original_matrix := lv_original_matrix lv |}.

(** Python subscript [l[i]]: a negative index counts from the end; [None]
    is [IndexError]. *)
Definition py_index {A} (l : list A) (i : Z) : option A :=
  if decide (0 ≤ i) then l !! Z.to_nat i
  else if decide (0 ≤ Z.of_nat (length l) + i)
       then l !! Z.to_nat (Z.of_nat (length l) + i)
       else None.

(** Python [l[i] = v]; [None] is [IndexError]. *)
Definition py_store {A} (l : list A) (i : Z) (v : A) : option (list A) :=
  let j := if decide (0 ≤ i) then i else Z.of_nat (length l) + i in
  if decide (0 ≤ j < Z.of_nat (length l)) then Some (<[Z.to_nat j := v]> l)
  else None.

(** [m[y][x] = v] *)
Definition py_store2 (m : matrix) (y x : Z) (v : ascii) : option matrix :=
  row ← py_index m y;
  row' ← py_store row x v;
  py_store m y row'.

(** [Level.getPlayerPosition]: the first marker of the scan, as [(x, y)]. *)
Fixpoint find_in_row (x : Z) (row : list ascii) : option Z :=
  match row with
  | [] => None
  | cell :: row' =>
      if bool_decide (cell = PLAYER) || bool_decide (cell = PLAYER_ON_GOAL)
      then Some x else find_in_row (x + 1) row'
  end.

Fixpoint find_player (y : Z) (m : matrix) : option (Z * Z) :=
  match m with
  | [] => None
  | row :: m' =>
      match find_in_row 0 row with
      | Some x => Some (x, y)
      | None => find_player (y + 1) m'
      end
  end.

Definition getPlayerPosition (lv : Level) : option (Z * Z) :=
  find_player 0 (lv_matrix lv).

(** [Level.addToHistory]: at most 100 entries are kept. *)
Definition addToHistory (lv : Level) (m : matrix) : Level :=
  let h := lv_history lv ++ [m] in
  with_matrix lv (lv_matrix lv) (if decide (100 < length h)%nat then drop 1 h else h).

(** [Level.getLastMatrix]: undo, when there is something to undo. *)
Definition getLastMatrix (lv : Level) : Level :=
  match last (lv_history lv) with
  | Some m => with_matrix lv m (removelast (lv_history lv))
  | None => lv
  end.

(** [Level.isSolved] *)
Definition isSolved (lv : Level) : bool :=
  let cells := concat (lv_matrix lv) in
  let boxes := length (filter (λ c, c = BOX ∨ c = BOX_ON_GOAL) cells) in
  let goals := length (filter (λ c, c = GOAL ∨ c = BOX_ON_GOAL) cells) in
  let boxes_on_goals := length (filter (λ c, c = BOX_ON_GOAL) cells) in
  bool_decide (boxes = goals) && bool_decide (goals = boxes_on_goals).

Definition direction_delta (direction : string) : option (Z * Z) :=
  if decide (direction = "L"%string) then Some (-1, 0)
  else if decide (direction = "R"%string) then Some (1, 0)
  else if decide (direction = "U"%string) then Some (0, -1)
  else if decide (direction = "D"%string) then Some (0, 1)
  else None.

(** [0 <= y < len(matrix) and 0 <= x < len(matrix[y])], evaluated left to
    right. *)
Definition in_grid_guard (m : matrix) (y x : Z) : option bool :=
  if decide (0 ≤ y < Z.of_nat (length m)) then
    row ← py_index m y;
    Some (bool_decide (0 ≤ x < Z.of_nat (length row)))
  else Some false.

(** [movePlayer(direction)] on the global [myLevel]: the value returned and
    the level afterwards; [None] stands for an [IndexError].  The redraw and,
    when the move completes the level, the loading of the next level by the
    game loop are not part of the model. *)
Definition movePlayer (direction : string) (lv : Level) : option (bool * Level) :=
  let matrix := lv_matrix lv in
  let lv := addToHistory lv matrix in
  match getPlayerPosition lv with
  | None => Some (false, lv)
  | Some (x, y) =>
      match direction_delta direction with
      | None => Some (false, lv)
      | Some (dx, dy) =>
          let next_x := x + dx in
          let next_y := y + dy in
          let next_next_x := x + 2 * dx in
          let next_next_y := y + 2 * dy in
          ok ← in_grid_guard matrix next_y next_x;
          if negb ok then Some (false, getLastMatrix lv)
          else
            current_player_char ← py_index matrix y ≫= λ row, py_index row x;
            destination_char ← py_index matrix next_y ≫= λ row, py_index row next_x;
            let new_matrix := matrix in
            let leave := if bool_decide (current_player_char = PLAYER_ON_GOAL)
                         then GOAL else FLOOR in
            if bool_decide (destination_char = FLOOR)
               || bool_decide (destination_char = GOAL)
            then
              new_matrix ← py_store2 new_matrix next_y next_x
                (if bool_decide (destination_char = GOAL)
                 then PLAYER_ON_GOAL else PLAYER);
              new_matrix ← py_store2 new_matrix y x leave;
              Some (true, with_matrix lv new_matrix (lv_history lv))
            else if bool_decide (destination_char = BOX)
                    || bool_decide (destination_char = BOX_ON_GOAL)
            then
              ok2 ← in_grid_guard matrix next_next_y next_next_x;
              if negb ok2 then Some (false, getLastMatrix lv)
              else
                char_beyond_box ←
                  py_index matrix next_next_y ≫= λ row, py_index row next_next_x;
                if bool_decide (char_beyond_box = FLOOR)
                   || bool_decide (char_beyond_box = GOAL)
                then
                  new_matrix ← py_store2 new_matrix next_next_y next_next_x
                    (if bool_decide (char_beyond_box = GOAL)
                     then BOX_ON_GOAL else BOX);
                  new_matrix ← py_store2 new_matrix next_y next_x
                    (if bool_decide (destination_char = BOX_ON_GOAL)
                     then PLAYER_ON_GOAL else PLAYER);
                  new_matrix ← py_store2 new_matrix y x leave;
                  Some (true, with_matrix lv new_matrix (lv_history lv))
                else Some (false, getLastMatrix lv)
            else Some (false, getLastMatrix lv)
      end
  end.

Definition direction_name (mv : move) : string :=
  match mv with U => "U" | D => "D" | L => "L" | R => "R" end.

(** The cases in which the claim wants a move rejected: the destination is
    outside the grid or a wall, or it holds a box and the cell beyond is
    outside the grid or anything but floor or goal. *)
Definition move_blocked (m : matrix) (p : pos) (mv : move) : Prop :=
  match get m (pstep p mv).1 (pstep p mv).2 with
  | None => True
  | Some ch =>
      ch = WALL
      ∨ (ch ∈ [BOX; BOX_ON_GOAL]
         ∧ match get m (pstep (pstep p mv) mv).1 (pstep (pstep p mv) mv).2 with
           | None => True
           | Some ch2 => ch2 ∉ [FLOOR; GOAL]
           end)
  end.

Definition level_0 : Level :=
  {| lv_matrix := fallback_0; lv_history := []; lv_is_pcg := true;
     lv_solution_path := fallback_solution_0; lv_original_matrix := fallback_0 |}.

(** The generator draws from Python's [random] module and keeps one global,
    [last_fallback_index].  The numbers [random] hands out are modelled by an
    arbitrary sequence [draws], read from position [cursor]: whatever the
    seed (and every [random.seed] call of the source only changes which
    numbers come next), the numbers drawn in a run form such a sequence. *)
Record world := {
  draws : nat → nat;
  cursor : nat;
  last_fallback_index : Z;
}.

Definition Gen (A : Type) : Type := world → A * world.

#[global] Instance gen_ret : MRet Gen := λ A x w, (x, w).





















Definition found (result : option (list move)) : bool :=
  match result with Some (_ :: _) => true | _ => false end.









(** A grid on which the solver, with its default budget, returns a path
    that replays to a solved grid. *)
Definition solvable (level : matrix) : Prop :=
  ∃ path, solve_sokoban_bfs level DEFAULT_MAX_ITERATIONS = Some path
          ∧ ∃ m', replay level path = Some m' ∧ is_solved m' = true.

(** Every value a generator computation can return satisfies [P]. *)
Definition always {A} (P : A → Prop) (g : Gen A) : Prop := ∀ w, P (g w).1.

(** A grid handed to a function is a reference to a list object whose
    elements are references to row objects.  The store holds the objects,
    a reference is an index into it, and allocation appends. *)
Inductive obj :=
  | Row (cells : list ascii)
  | Mat (rows : list nat).

Abbreviation store := (list obj).

Definition Run (A : Type) : Type := store → A * store.

#[global] Instance run_ret : MRet Run := λ A x h, (x, h).
#[global] Instance run_bind : MBind Run :=
  λ A B f m h, let '(a, h') := m h in f a h'.

Definition alloc (o : obj) : Run nat := λ h, (length h, h ++ [o]).

Definition row_at (h : store) (l : nat) : list ascii :=
  match h !! l with Some (Row cells) => cells | _ => [] end.

(** The grid a reference stands for. *)
Definition deref (h : store) (mref : nat) : matrix :=
  match h !! mref with Some (Mat rows) => row_at h <$> rows | _ => [] end.

(** Reading a whole grid: [tuple(tuple(row) for row in matrix)], and the
    scans and subscript reads of the functions that only read. *)
Definition snapshot (mref : nat) : Run matrix := λ h, (deref h mref, h).

(** [[list(row) for row in rows]]: fresh row objects and a fresh list of
    them. *)
Fixpoint alloc_rows (rows : list (list ascii)) : Run (list nat) :=
  match rows with
  | [] => mret []
  | row :: rows' =>
      l ← alloc (Row row);
      ls ← alloc_rows rows';
      mret (l :: ls)
  end.

Definition new_matrix (m : matrix) : Run nat :=
  ls ← alloc_rows m; alloc (Mat ls).

(** [[row[:] for row in matrix]] *)
Definition copy_matrix (mref : nat) : Run nat :=
  m ← snapshot mref; new_matrix m.

(** [matrix[r][c] = v], for [r] and [c] within bounds. *)
Definition store_cell (mref : nat) (r c : Z) (v : ascii) : Run unit :=
  λ h,
    match h !! mref with
    | Some (Mat rows) =>
        match rows !! Z.to_nat r with
        | Some l =>
            match h !! l with
            | Some (Row cells) => (tt, <[l := Row (<[Z.to_nat c := v]> cells)]> h)
            | _ => (tt, h)
            end
        | None => (tt, h)
        end
    | _ => (tt, h)
    end.

(** [matrix[r][c]] *)
Definition load_cell (mref : nat) (r c : Z) : Run ascii :=
  λ h, (cell_at (deref h mref) r c, h).

(** [detect_simple_deadlocks(matrix)]: [clean_matrix] is a new object. *)
Definition run_detect_simple_deadlocks (mref : nat) : Run (gset pos) :=
  m ← snapshot mref;
  let rows := n_rows m in
  let cols := n_cols m in
  let goal_positions := get_goal_positions m in
  clean_ref ← new_matrix (clean_matrix_of m rows cols);
  clean_matrix ← snapshot clean_ref;
  mret (simple_deadlock_squares clean_matrix rows cols goal_positions).

(** [has_deadlock(matrix)]: the scans and the freeze and corral detectors
    only read the grid. *)
Definition run_has_deadlock (mref : nat) : Run bool :=
  m ← snapshot mref;
  let '(player_pos, box_positions) := get_player_and_boxes_positions m in
  let goal_positions := get_goal_positions m in
  match player_pos with
  | None => mret true
  | Some player_pos =>
      if bool_decide (box_positions = []) || bool_decide (goal_positions = [])
      then mret true
      else
        simple_deadlock_squares ← run_detect_simple_deadlocks mref;
        if existsb (λ b, bool_decide (b ∈ simple_deadlock_squares)
                         && bool_decide (b ∉ goal_positions))
                   box_positions
        then mret true
        else
          m ← snapshot mref;
          if detect_freeze_deadlocks m box_positions goal_positions then mret true
          else if detect_corral_deadlocks m player_pos box_positions goal_positions
          then mret true
          else mret false
  end.

(** [continue], or [valid_move] left false. *)
Definition rejected : Run (option (nat * pos * list pos)) := mret None.

(** The body of the solver's direction loop on the store: [next_matrix] is
    a copy of [current_matrix], and every assignment goes to the copy. *)
Definition run_solver_move (current_matrix : nat) (current_player_pos : pos)
    (current_box_positions : list pos) (mv : move)
  : Run (option (nat * pos * list pos)) :=
  let '(dr, dc) := delta mv in
  let new_player_r := current_player_pos.1 + dr in
  let new_player_c := current_player_pos.2 + dc in
  next_matrix ← copy_matrix current_matrix;
  shape ← snapshot next_matrix;
  let rows := n_rows shape in
  let cols := n_cols shape in
  let leave : Run unit :=
    here ← load_cell next_matrix current_player_pos.1 current_player_pos.2;
    store_cell next_matrix current_player_pos.1 current_player_pos.2
               (if bool_decide (here = PLAYER_ON_GOAL) then GOAL else FLOOR) in
  if negb (in_bounds rows cols new_player_r new_player_c) then rejected
  else
    char_at_new_pos ← load_cell next_matrix new_player_r new_player_c;
    if char_in char_at_new_pos [FLOOR; GOAL] then
      _ ← store_cell next_matrix new_player_r new_player_c
            (if bool_decide (char_at_new_pos = GOAL) then PLAYER_ON_GOAL else PLAYER);
      _ ← leave;
      mret (Some (next_matrix, (new_player_r, new_player_c), current_box_positions))
    else if char_in char_at_new_pos [BOX; BOX_ON_GOAL] then
      let pushed_box_r := new_player_r + dr in
      let pushed_box_c := new_player_c + dc in
      if negb (in_bounds rows cols pushed_box_r pushed_box_c) then rejected
      else
        char_beyond_box ← load_cell next_matrix pushed_box_r pushed_box_c;
        if char_in char_beyond_box [FLOOR; GOAL] then
          let new_box_positions :=
            remove_first (new_player_r, new_player_c) current_box_positions
            ++ [(pushed_box_r, pushed_box_c)] in
          _ ← store_cell next_matrix pushed_box_r pushed_box_c
                (if bool_decide (char_beyond_box = GOAL) then BOX_ON_GOAL else BOX);
          _ ← store_cell next_matrix new_player_r new_player_c
                (if bool_decide (char_at_new_pos = BOX_ON_GOAL)
                 then PLAYER_ON_GOAL else PLAYER);
          _ ← leave;
          mret (Some (next_matrix, (new_player_r, new_player_c), new_box_positions))
        else rejected
    else rejected.

(** One round of the direction loop on the store. *)
Definition run_try_move (goal_positions : list pos) (current_matrix : nat)
    (current_player_pos : pos) (current_box_positions : list pos)
    (current_path : list move) (acc : scan_result) (mv : move) : Run scan_result :=
  match acc with
  | Found path => mret (Found path)
  | Going queue visited =>
      moved ← run_solver_move current_matrix current_player_pos
                              current_box_positions mv;
      match moved with
      | None => mret acc
      | Some (next_matrix, new_player_pos, new_box_positions) =>
          next_matrix_tuple ← snapshot next_matrix;
          let key : state_key := (new_player_pos, sorted new_box_positions) in
          if bool_decide (key ∈ visited) then mret acc
          else if is_level_solved new_box_positions goal_positions
          then mret (Found (current_path ++ [mv]))
          else
            deadlocked ← run_has_deadlock next_matrix;
            if (deadlocked : bool) then mret acc
            else mret (Going (queue ++ [(next_matrix_tuple, current_path ++ [mv])])
                             ({[key]} ∪ visited))
      end
  end.

Fixpoint run_try_moves (goal_positions : list pos) (current_matrix : nat)
    (current_player_pos : pos) (current_box_positions : list pos)
    (current_path : list move) (acc : scan_result) (mvs : list move)
  : Run scan_result :=
  match mvs with
  | [] => mret acc
  | mv :: mvs' =>
      acc ← run_try_move goal_positions current_matrix current_player_pos
                         current_box_positions current_path acc mv;
      run_try_moves goal_positions current_matrix current_player_pos
                    current_box_positions current_path acc mvs'
  end.

(** The solver's main loop on the store: the queue holds tuples, and each
    dequeued tuple is turned into fresh lists. *)
Fixpoint run_bfs_loop (fuel : nat) (goal_positions : list pos)
    (queue : list (matrix * list move)) (visited : gset state_key)
  : Run (option (list move)) :=
  match fuel with
  | O => mret None
  | S fuel' =>
      match queue with
      | [] => mret None
      | (current_matrix_tuple, current_path) :: queue' =>
          current_matrix ← new_matrix current_matrix_tuple;
          current ← snapshot current_matrix;
          match get_player_and_boxes_positions current with
          | (None, _) => mret None
          | (Some current_player_pos, current_box_positions) =>
              res ← run_try_moves goal_positions current_matrix current_player_pos
                                  current_box_positions current_path
                                  (Going queue' visited) MOVES;
              match res with
              | Found path => mret (Some path)
              | Going queue'' visited' =>
                  run_bfs_loop fuel' goal_positions queue'' visited'
              end
          end
      end
  end.

(** [solve_sokoban_bfs(initial_matrix, max_iterations)] called on a list of
    lists. *)
Definition run_solve_sokoban_bfs (initial_matrix : nat) (max_iterations : Z)
  : Run (option (list move)) :=
  initial_matrix_tuple ← snapshot initial_matrix;
  let '(initial_player_pos, initial_box_positions) :=
    get_player_and_boxes_positions initial_matrix_tuple in
  let goal_positions := get_goal_positions initial_matrix_tuple in
  match initial_player_pos with
  | None => mret None
  | Some initial_player_pos =>
      if bool_decide (initial_box_positions = []) || bool_decide (goal_positions = [])
      then mret None
      else if is_level_solved initial_box_positions goal_positions then mret (Some [])
      else
        run_bfs_loop (Z.to_nat max_iterations) goal_positions
                     [(initial_matrix_tuple, [])]
                     {[(initial_player_pos, sorted initial_box_positions)]}
  end.

(** A reference to a grid whose rows are row objects of the store. *)
Definition grid_ref (h : store) (mref : nat) : Prop :=
  ∃ rows, h !! mref = Some (Mat rows)
          ∧ ∀ l, l ∈ rows → ∃ cells, h !! l = Some (Row cells).

(** Put a grid into an empty store. *)
Definition store_of (m : matrix) : store := (new_matrix m []).2.
Definition ref_of (m : matrix) : nat := (new_matrix m []).1.

(** A grid built by the running call: its row objects were allocated after
    the store [h0] the call started from, no two of its rows are the same
    object, and it holds the cells of [m]. *)
Definition fresh_grid (h0 h : store) (mref : nat) (m : matrix) : Prop :=
  h0 `prefix_of` h
  ∧ ∃ rows, h !! mref = Some (Mat rows)
            ∧ NoDup rows
            ∧ Forall (λ l, (length h0 ≤ l)%nat) rows
            ∧ Forall2 (λ l row, h !! l = Some (Row row)) rows m.

(** What a computation returns and the store it leaves, from store [h]. *)
Definition run_spec {A} (g : Run A) (h : store) (Q : A → store → Prop) : Prop :=
  Q (g h).1 (g h).2.

(** The key under which the solver records a grid. *)
Definition key_of (m : matrix) : state_key :=
  (default (0, 0) (get_player_and_boxes_positions m).1,
   sorted (get_player_and_boxes_positions m).2).

Definition solved_for (goal_positions : list pos) (m : matrix) : bool :=
  is_level_solved (get_player_and_boxes_positions m).2 goal_positions.

(** Codes a move can write or erase. *)
Definition movable (ch : ascii) : bool :=
  is_player_char ch || is_box_char ch || is_free_char ch.

(** A cell against the cell of the initial grid: a goal where that is one,
    and the same code unless both hold codes that moves write. *)
Definition cell_layout (o0 o : option ascii) : Prop :=
  is_goal_char <$> o = is_goal_char <$> o0
  ∧ movable <$> o = movable <$> o0
  ∧ ∀ ch, o = Some ch → movable ch = false → o0 = Some ch.

(** [m] has the shape, the goals and the fixed cells of [m0]. *)
Definition same_layout (m0 m : matrix) : Prop :=
  length <$> m = length <$> m0
  ∧ ∀ r c, cell_layout (get m0 r c) (get m r c).

(** The only player marker of [m] is at [p]. *)
Definition player_at (m : matrix) (p : pos) : Prop :=
  (get_player_and_boxes_positions m).1 = Some p
  ∧ ∀ r c ch, get m r c = Some ch → is_player_char ch → (r, c) = p.

Definition state_of (m0 m : matrix) : Prop :=
  same_layout m0 m ∧ ∃ p, player_at m p.

(** No state reached after the first move and before the last is dropped
    by the solver's [has_deadlock] test. *)
Fixpoint unpruned (m : matrix) (path : list move) : bool :=
  match path with
  | [] => true
  | mv :: path' =>
      match apply_move m mv with
      | None => false
      | Some m' =>
          match path' with
          | [] => true
          | _ => negb (has_deadlock m') && unpruned m' path'
          end
      end
  end.

(** The grid has been dequeued and its four moves tried without a return. *)
Definition expanded (goal_positions : list pos) (visited : gset state_key)
    (m : matrix) : Prop :=
  ∀ mv m', apply_move m mv = Some m' →
           key_of m' ∈ visited
           ∨ (solved_for goal_positions m' = false ∧ has_deadlock m' = true).

(** The queue holds paths of length [n] followed by paths of length [n+1]. *)
Definition two_levels (n : nat) (queue : list (matrix * list move)) : Prop :=
  ∃ front back, queue = front ++ back
                ∧ Forall (λ e, length e.2 = n) front
                ∧ Forall (λ e, length e.2 = S n) back.

(** What a round of the direction loop that goes on has done. *)
Definition round (goal_positions : list pos) (cm : matrix)
    (path : list move) (mvs : list move)
    (queue : list (matrix * list move)) (visited : gset state_key)
    (queue' : list (matrix * list move)) (visited' : gset state_key) : Prop :=
  ∃ new, queue' = queue ++ new
    ∧ visited ⊆ visited'
    ∧ (∀ k, k ∈ visited' → k ∈ visited ∨ ∃ e, e ∈ new ∧ key_of e.1 = k)
    ∧ Forall (λ e, (∃ mv, e.2 = path ++ [mv] ∧ apply_move cm mv = Some e.1)
                   ∧ solved_for goal_positions e.1 = false
                   ∧ key_of e.1 ∈ visited') new
    ∧ ∀ mv m', mv ∈ mvs → apply_move cm mv = Some m' →
               key_of m' ∈ visited'
               ∨ (solved_for goal_positions m' = false ∧ has_deadlock m' = true).

(** Between the iterations of the solver's loop. *)
Definition search_inv (m0 : matrix) (goal_positions : list pos)
    (queue : list (matrix * list move)) (visited : gset state_key) : Prop :=
  Forall (λ e, replay m0 e.2 = Some e.1 ∧ key_of e.1 ∈ visited) queue
  ∧ (∃ n, two_levels n queue)
  ∧ ∀ m, state_of m0 m → key_of m ∈ visited →
         solved_for goal_positions m = false
         ∧ ((∃ path, (m, path) ∈ queue) ∨ expanded goal_positions visited m).

(** The search has not yet left the states of [track] behind: the state
    after [j] moves is expanded, or an earlier one waits in the queue with a
    path no longer than the moves that lead to it. *)
Definition on_track (m0 : matrix) (goal_positions : list pos)
    (track : list move) (queue : list (matrix * list move))
    (visited : gset state_key) : Prop :=
  ∀ j sj, (j < length track)%nat → replay m0 (take j track) = Some sj →
    expanded goal_positions visited sj
    ∨ ∃ i si path, (i ≤ j)%nat ∧ replay m0 (take i track) = Some si
                   ∧ (si, path) ∈ queue ∧ (length path ≤ i)%nat.

(** A solvable grid on which the classifier flags the state after the
    first push to the right. *)
Definition detour_level : matrix :=
  [ ["#";"#";"#";"#";"#";"#";"#"];
    ["#";" ";" ";" ";" ";" ";"#"];
    ["#";"@";"$";" ";" ";".";"#"];
    ["#";"#";"#";"$";"#";"#";"#"];
    ["#";"#";"#";".";"#";"#";"#"];
    ["#";"#";"#";"#";"#";"#";"#"] ]%char.

Definition detour_path : list move := [U; R; R; D; D; U; U; L; L; D; R; R; R].

Definition direct_path : list move := [R; R; R; L; D].

#[local] Instance pos_le_trans : Transitive pos_le.
Proof. intros [] [] []. unfold pos_le. simpl. lia. Qed.

#[local] Instance pos_le_total : Total pos_le.
Proof. intros [] []. unfold pos_le. simpl. lia. Qed.

#[local] Instance pos_le_antisymm : AntiSymm (=) pos_le.
Proof. intros [] []. unfold pos_le. simpl. intros. f_equal; lia. Qed.

Ltac at_cell :=
  match goal with
  | H : (?r, ?c) = ?p |- _ =>
      assert (r = p.1 ∧ c = p.2) as [-> ->] by (by rewrite <-H); clear H
  end.

(** No state on the way along [path], the last included, is solved. *)
Definition unsolved_along (m0 : matrix) (goal_positions : list pos)
    (path : list move) : Prop :=
  ∀ j s, (j ≤ length path)%nat → replay m0 (take j path) = Some s →
         solved_for goal_positions s = false.
(** * Properties *)

(** ** Scans of the grid *)

Section enumerate.
Context {A : Type}.
Implicit Types l : list A.

Lemma elem_of_enumerate_from l s i x :
  (i, x) ∈ enumerate_from s l ↔ s ≤ i ∧ l !! Z.to_nat (i - s) = Some x.
Proof.
  revert s. induction l as [|y l IH]; intros s; simpl.
  - split; [by intros ?%elem_of_nil | by intros [_ ?]].
  - rewrite elem_of_cons, IH. split.
    + intros [[= -> ->]|[Hle Hl]].
      * split; [lia|]. by replace (Z.to_nat (s - s)) with 0%nat by lia.
      * split; [lia|].
        replace (Z.to_nat (i - s)) with (S (Z.to_nat (i - (s + 1)))) by lia.
        done.
    + intros [Hle Hl]. destruct (decide (i = s)) as [->|Hne].
      * left. replace (Z.to_nat (s - s)) with 0%nat in Hl by lia.
        simpl in Hl. congruence.
      * right. split; [lia|].
        replace (Z.to_nat (i - s)) with (S (Z.to_nat (i - (s + 1)))) in Hl by lia.
        done.
Qed.

Lemma elem_of_enumerate l i x :
  (i, x) ∈ enumerate l ↔ 0 ≤ i ∧ l !! Z.to_nat i = Some x.
Proof.
  unfold enumerate. rewrite elem_of_enumerate_from.
  by replace (i - 0) with i by lia.
Qed.

Lemma NoDup_fst_enumerate_from l s : NoDup ((enumerate_from s l).*1).
Proof.
  revert s. induction l as [|y l IH]; intros s; simpl; constructor; [|done].
  rewrite list_elem_of_fmap. intros [[i x] [-> Hin]].
  apply elem_of_enumerate_from in Hin. simpl in *. lia.
Qed.

Lemma enumerate_from_snd l s : (enumerate_from s l).*2 = l.
Proof. revert s. induction l; intros; simpl; f_equal; auto. Qed.
End enumerate.

Lemma box_not_player ch : is_box_char ch → is_player_char ch = false.
Proof.
  unfold is_box_char, is_player_char, char_in.
  rewrite bool_decide_spec, !elem_of_cons, elem_of_nil.
  intros [->|[->|[]]]; done.
Qed.

Lemma scan_cells_spec r cells st :
  foldl (scan_cell r) st cells
  = (from_option Some st.1 (last (row_positions is_player_char r cells)),
     st.2 ++ row_positions is_box_char r cells).
Proof.
  unfold row_positions.
  revert st. induction cells as [|[c ch] cells IH]; intros [pl bx]; simpl.
  - by rewrite app_nil_r.
  - rewrite IH, !filter_cons. simpl.
    pose proof (box_not_player ch) as Hbp.
    destruct (is_player_char ch) eqn:Hp, (is_box_char ch) eqn:Hb; simpl.
    + by specialize (Hbp I).
    + f_equal. rewrite last_cons. by destruct (last _).
    + by rewrite <-app_assoc.
    + done.
Qed.

Lemma scan_rows_spec rows st :
  foldl scan_row st rows
  = (from_option Some st.1
       (last (rows ≫= λ x, row_positions is_player_char x.1 (enumerate x.2))),
     st.2 ++ (rows ≫= λ x, row_positions is_box_char x.1 (enumerate x.2))).
Proof.
  revert st. induction rows as [|[r row] rows IH]; intros [pl bx]; csimpl.
  - by rewrite app_nil_r.
  - rewrite IH, scan_cells_spec. csimpl. rewrite <-app_assoc. f_equal.
    rewrite last_app. by destruct (last (rows ≫= _)).
Qed.

Lemma scan_spec m :
  get_player_and_boxes_positions m
  = (last (positions_where is_player_char m), positions_where is_box_char m).
Proof.
  unfold get_player_and_boxes_positions. rewrite scan_rows_spec. simpl.
  unfold positions_where. by destruct (last _).
Qed.

Lemma goal_cells_spec r cells acc :
  foldl (goal_cell r) acc cells = acc ++ row_positions is_goal_char r cells.
Proof.
  unfold row_positions.
  revert acc. induction cells as [|[c ch] cells IH]; intros acc; simpl.
  - by rewrite app_nil_r.
  - rewrite IH, filter_cons. simpl. destruct (is_goal_char ch); simpl.
    + by rewrite <-app_assoc.
    + done.
Qed.

Lemma goals_spec m : get_goal_positions m = positions_where is_goal_char m.
Proof.
  unfold get_goal_positions, positions_where.
  enough (∀ rows acc,
    foldl goal_row acc rows
    = acc ++ (rows ≫= λ x, row_positions is_goal_char x.1 (enumerate x.2))) as H
    by apply (H _ []).
  induction rows as [|[r row] rows IH]; intros acc; csimpl.
  - by rewrite app_nil_r.
  - by rewrite IH, goal_cells_spec, <-app_assoc.
Qed.

Lemma elem_of_positions_where p m r c :
  (r, c) ∈ positions_where p m ↔ ∃ ch, get m r c = Some ch ∧ p ch.
Proof.
  unfold positions_where, row_positions, get.
  rewrite list_elem_of_bind. split.
  - intros [[r' row] [Hin Hrow]]. simpl in *.
    apply list_elem_of_fmap in Hin as [[c' ch] [[= -> ->] Hin]].
    apply list_elem_of_filter in Hin as [Hp Hin]. simpl in *.
    apply elem_of_enumerate in Hin as [Hc Hin], Hrow as [Hr Hrow].
    exists ch. split; [|done]. rewrite decide_True by done.
    rewrite Hrow. done.
  - intros [ch [Hget Hp]]. case_decide as Hrc; [|done].
    destruct (m !! Z.to_nat r) as [row|] eqn:Hrow; [|done]. simpl in Hget.
    exists (r, row). split.
    + apply list_elem_of_fmap. exists (c, ch). split; [done|].
      apply list_elem_of_filter. split; [done|].
      apply elem_of_enumerate. split; [lia|done].
    + apply elem_of_enumerate. split; [lia|done].
Qed.

Lemma NoDup_positions_from p (m : matrix) s :
  NoDup (enumerate_from s m ≫= λ x, row_positions p x.1 (enumerate x.2)).
Proof.
  revert s. induction m as [|row m IH]; intros s; csimpl; [constructor|].
  apply NoDup_app. split_and!.
  - unfold row_positions. apply NoDup_fmap_2_strong.
    + intros [c1 ch1] [c2 ch2] Hin1 Hin2 [= ->].
      apply list_elem_of_filter in Hin1 as [_ Hin1], Hin2 as [_ Hin2].
      apply elem_of_enumerate in Hin1 as [_ Hin1], Hin2 as [_ Hin2].
      congruence.
    + apply NoDup_filter.
      apply (NoDup_fmap_1 fst), NoDup_fst_enumerate_from.
  - intros [r c] Hin1 Hin2.
    apply list_elem_of_fmap in Hin1 as [[c' ch] [[= -> ->] _]].
    apply list_elem_of_bind in Hin2 as [[r' row'] [Hin2 Hrow]]. simpl in *.
    apply list_elem_of_fmap in Hin2 as [[c'' ch''] [[= -> ->] _]].
    apply elem_of_enumerate_from in Hrow. lia.
  - apply IH.
Qed.

Lemma NoDup_positions_where p m : NoDup (positions_where p m).
Proof. apply NoDup_positions_from. Qed.

(** ** Reading and writing cells *)

Lemma get_set_cell m r c v r' c' :
  0 ≤ r → 0 ≤ c →
  get (set_cell m r c v) r' c'
  = if decide ((r', c') = (r, c)) then (λ _, v) <$> get m r c else get m r' c'.
Proof.
  intros Hr Hc. unfold get, set_cell.
  case_decide as Hrc'.
  2: { case_decide as Heq; [|done]. simplify_eq. lia. }
  rewrite (decide_True (P := 0 ≤ r ∧ 0 ≤ c)) by done.
  destruct (decide (r' = r)) as [->|Hne].
  - rewrite list_lookup_alter_eq.
    destruct (m !! Z.to_nat r) as [row|]; simpl; [|by case_decide].
    destruct (decide (c' = c)) as [->|Hnc].
    + rewrite decide_True by done.
      destruct (row !! Z.to_nat c) eqn:Hrow; simpl.
      * apply list_lookup_insert_eq. by eapply lookup_lt_Some.
      * rewrite list_insert_ge; [done|]. by apply lookup_ge_None.
    + rewrite decide_False by congruence.
      rewrite list_lookup_insert_ne by lia. done.
  - rewrite decide_False by congruence.
    rewrite list_lookup_alter_ne by lia. done.
Qed.

Lemma set_cell_shape m r c v : length <$> set_cell m r c v = length <$> m.
Proof.
  unfold set_cell. apply list_eq. intros i.
  rewrite !list_lookup_fmap.
  destruct (decide (i = Z.to_nat r)) as [->|Hne].
  - rewrite list_lookup_alter_eq. destruct (m !! Z.to_nat r); simpl; [|done].
    by rewrite length_insert.
  - by rewrite list_lookup_alter_ne.
Qed.

Lemma n_rows_shape m m' : length <$> m' = length <$> m → n_rows m' = n_rows m.
Proof.
  intros H. unfold n_rows. f_equal.
  by rewrite <-(length_fmap length m'), H, length_fmap.
Qed.

Lemma n_cols_shape m m' : length <$> m' = length <$> m → n_cols m' = n_cols m.
Proof.
  intros H. unfold n_cols. f_equal.
  apply (f_equal (λ l, l !! 0%nat)) in H. rewrite !list_lookup_fmap in H.
  destruct (m' !! 0%nat), (m !! 0%nat); simpl in *; congruence.
Qed.

Lemma cell_at_get m r c ch : get m r c = Some ch → cell_at m r c = ch.
Proof. unfold cell_at. by intros ->. Qed.

Lemma cell_at_coded m r c ch :
  cell_at m r c = ch → ch ≠ "000"%char → get m r c = Some ch.
Proof.
  unfold cell_at. destruct (get m r c); simpl; intros; subst; done.
Qed.

Lemma char_in_get m r c l :
  char_in (cell_at m r c) l → "000"%char ∉ l →
  ∃ ch, get m r c = Some ch ∧ ch ∈ l.
Proof.
  unfold char_in, cell_at. rewrite bool_decide_spec.
  destruct (get m r c) as [ch|]; simpl; [eauto|]. done.
Qed.

(** ** The solver's transition *)

Lemma pstep_ne p mv : pstep p mv ≠ p.
Proof. destruct p, mv; unfold pstep; simpl; intros [=]; lia. Qed.

Lemma pstep2_ne p mv : pstep (pstep p mv) mv ≠ p.
Proof. destruct p, mv; unfold pstep; simpl; intros [=]; lia. Qed.

Lemma get_nonneg m r c ch : get m r c = Some ch → 0 ≤ r ∧ 0 ≤ c.
Proof. unfold get. by case_decide. Qed.

Lemma in_bounds_nonneg rows cols r c : in_bounds rows cols r c → 0 ≤ r ∧ 0 ≤ c.
Proof. unfold in_bounds. rewrite bool_decide_spec. lia. Qed.

Lemma player_char_cases ch :
  is_player_char ch → ch = PLAYER ∨ ch = PLAYER_ON_GOAL.
Proof.
  unfold is_player_char, char_in. rewrite bool_decide_spec, !elem_of_cons, elem_of_nil.
  tauto.
Qed.

Lemma solver_move_effect m p bp mv m' p' bp' chp :
  get m p.1 p.2 = Some chp → is_player_char chp →
  solver_move m p bp mv = Some (m', p', bp') →
  p' = pstep p mv
  ∧ in_bounds (n_rows m) (n_cols m) p'.1 p'.2
  ∧ length <$> m' = length <$> m
  ∧ move_effect m p bp mv m' bp'.
Proof.
  intros Hp Hpl. unfold solver_move.
  pose proof (get_nonneg _ _ _ _ Hp) as [Hp1 Hp2].
  destruct (delta mv) as [dr dc] eqn:Hd.
  assert (¬ (dr = 0 ∧ dc = 0)) as Hd0 by (destruct mv; simplify_eq/=; lia).
  destruct p as [pr pc]. simpl in *.
  destruct (in_bounds _ _ (pr + dr) (pc + dc)) eqn:Hb; simpl; [|done].
  apply Is_true_true in Hb. pose proof (in_bounds_nonneg _ _ _ _ Hb) as [Hq1 Hq2].
  destruct (char_in (cell_at m (pr + dr) (pc + dc)) [FLOOR; GOAL]) eqn:Hfree.
  - apply Is_true_true, char_in_get in Hfree as [chq [Hq Hin]]; [|by apply (bool_decide_unpack _)].
    intros [= <- <- <-]. split_and!; [by unfold pstep; rewrite Hd|done| |].
    { by rewrite !set_cell_shape. }
    eapply effect_step with (chp := chp) (chq := chq);
      unfold pstep; rewrite ?Hd; simpl; [done..|]. intros r c.
    rewrite get_set_cell by done.
    match goal with |- context [cell_at ?mm pr pc] =>
      assert (cell_at mm pr pc = chp) as ->
    end.
    { apply cell_at_get. rewrite get_set_cell by done.
      by rewrite decide_False by (intros [=]; lia). }
    rewrite !get_set_cell by done. rewrite (cell_at_get _ _ _ _ Hq).
    case_decide as H1.
    + rewrite decide_False by (intros [=]; lia).
      simplify_eq. rewrite Hp. simpl. f_equal. unfold on_goal.
      apply player_char_cases in Hpl as [->| ->]; done.
    + case_decide as H2; [|done]. simplify_eq. rewrite Hq. simpl. f_equal.
      unfold on_goal. apply elem_of_cons in Hin as [->|Hin]; [done|].
      apply list_elem_of_singleton in Hin as ->. done.
  - destruct (char_in (cell_at m (pr + dr) (pc + dc)) [BOX; BOX_ON_GOAL]) eqn:Hbox; [|done].
    apply Is_true_true, char_in_get in Hbox as [chq [Hq Hin]]; [|by apply (bool_decide_unpack _)].
    destruct (in_bounds _ _ (pr + dr + dr) (pc + dc + dc)) eqn:Hb2; simpl; [|done].
    apply Is_true_true in Hb2. pose proof (in_bounds_nonneg _ _ _ _ Hb2) as [Hn1 Hn2].
    destruct (char_in (cell_at m (pr + dr + dr) (pc + dc + dc)) [FLOOR; GOAL]) eqn:Hfree2;
      [|done].
    apply Is_true_true, char_in_get in Hfree2 as [ch2 [Hg2 Hin2]]; [|by apply (bool_decide_unpack _)].
    intros [= <- <- <-]. split_and!; [by unfold pstep; rewrite Hd|done| |].
    { by rewrite !set_cell_shape. }
    eapply effect_push with (chp := chp) (chq := chq) (ch2 := ch2);
      unfold pstep; rewrite ?Hd; simpl; [done..|]. intros r c.
    rewrite get_set_cell by done.
    rewrite (cell_at_get _ _ _ _ Hq), (cell_at_get _ _ _ _ Hg2).
    match goal with |- context [cell_at ?mm pr pc] =>
      assert (cell_at mm pr pc = chp) as ->
    end.
    { apply cell_at_get. rewrite !get_set_cell by done.
      by rewrite !decide_False by (intros [=]; lia). }
    rewrite !get_set_cell by done.
    case_decide as H1.
    + rewrite !decide_False by (intros [=]; lia).
      simplify_eq. rewrite Hp. simpl. f_equal. unfold on_goal.
      apply player_char_cases in Hpl as [->| ->]; done.
    + case_decide as H2.
      * rewrite decide_False by (intros [=]; lia).
        simplify_eq. rewrite Hq. simpl. f_equal.
        unfold on_goal. apply elem_of_cons in Hin as [->|Hin]; [done|].
        apply list_elem_of_singleton in Hin as ->. done.
      * case_decide as H3; [|done]. simplify_eq. rewrite Hg2. simpl. f_equal.
        unfold on_goal. apply elem_of_cons in Hin2 as [->|Hin2]; [done|].
        apply list_elem_of_singleton in Hin2 as ->. done.
Qed.

(** ** Moves seen from the grid *)

Lemma scan_player_cell m p bp :
  get_player_and_boxes_positions m = (Some p, bp) →
  ∃ chp, get m p.1 p.2 = Some chp ∧ is_player_char chp.
Proof.
  rewrite scan_spec. intros [= Hl _].
  apply last_Some_elem_of in Hl. destruct p as [r c].
  by apply elem_of_positions_where in Hl.
Qed.

Lemma elem_of_boxes m r c :
  (r, c) ∈ (get_player_and_boxes_positions m).2
  ↔ ∃ ch, get m r c = Some ch ∧ is_box_char ch.
Proof. rewrite scan_spec. apply elem_of_positions_where. Qed.

Lemma elem_of_goals m r c :
  (r, c) ∈ get_goal_positions m ↔ ∃ ch, get m r c = Some ch ∧ is_goal_char ch.
Proof. rewrite goals_spec. apply elem_of_positions_where. Qed.

Lemma apply_move_inv m mv m' :
  apply_move m mv = Some m' →
  ∃ p bp bp' chp,
    get_player_and_boxes_positions m = (Some p, bp)
    ∧ get m p.1 p.2 = Some chp ∧ is_player_char chp
    ∧ solver_move m p bp mv = Some (m', pstep p mv, bp')
    ∧ in_bounds (n_rows m) (n_cols m) (pstep p mv).1 (pstep p mv).2
    ∧ length <$> m' = length <$> m
    ∧ move_effect m p bp mv m' bp'.
Proof.
  unfold apply_move.
  destruct (get_player_and_boxes_positions m) as [[p|] bp] eqn:Hscan; [|done].
  destruct (solver_move m p bp mv) as [[[m1 p1] bp1]|] eqn:Hmove; [|done].
  intros [= <-].
  destruct (scan_player_cell _ _ _ Hscan) as [chp [Hp Hpl]].
  destruct (solver_move_effect _ _ _ _ _ _ _ _ Hp Hpl Hmove) as (-> & Hb & Hsh & Heff).
  by exists p, bp, bp1, chp.
Qed.

(** A move keeps every wall and every goal where it is. *)
Lemma on_goal_is_goal ch yes no :
  is_goal_char yes → is_goal_char no = false →
  is_goal_char (on_goal ch yes no) = is_goal_char ch.
Proof.
  unfold on_goal. intros Hy Hn. destruct (is_goal_char ch); [|done].
  by apply Is_true_true.
Qed.

Lemma move_effect_goal m p bp mv m' bp' r c :
  move_effect m p bp mv m' bp' →
  is_goal_char <$> get m' r c = is_goal_char <$> get m r c.
Proof.
  intros [chp chq Hp _ Hq Hin _ Hget | chp chq ch2 Hp _ Hq Hin _ Hq2 Hin2 _ Hget];
    rewrite Hget.
  - case_decide as H1; [|case_decide as H2; [|done]].
    + rewrite <-H1 in Hp. simpl in Hp. rewrite Hp. simpl. f_equal.
      by apply on_goal_is_goal.
    + rewrite <-H2 in Hq. simpl in Hq. rewrite Hq. simpl. f_equal.
      by apply on_goal_is_goal.
  - case_decide as H1; [|case_decide as H2; [|case_decide as H3; [|done]]].
    + rewrite <-H1 in Hp. simpl in Hp. rewrite Hp. simpl. f_equal.
      by apply on_goal_is_goal.
    + rewrite <-H2 in Hq. simpl in Hq. rewrite Hq. simpl. f_equal.
      by apply on_goal_is_goal.
    + rewrite <-H3 in Hq2. simpl in Hq2. rewrite Hq2. simpl. f_equal.
      by apply on_goal_is_goal.
Qed.

Lemma apply_move_goals m mv m' x :
  apply_move m mv = Some m' → x ∈ get_goal_positions m' ↔ x ∈ get_goal_positions m.
Proof.
  intros (p & bp & bp' & chp & _ & _ & _ & _ & _ & _ & Heff)%apply_move_inv.
  destruct x as [r c]. rewrite !elem_of_goals.
  pose proof (move_effect_goal _ _ _ _ _ _ r c Heff) as Hg.
  destruct (get m' r c) as [ch'|], (get m r c) as [ch|]; simplify_eq/=; [|naive_solver].
  split; intros [? [[= <-] ?]]; eexists; (split; [done|]); congruence.
Qed.

Lemma replay_goals m path m' x :
  replay m path = Some m' → x ∈ get_goal_positions m' ↔ x ∈ get_goal_positions m.
Proof.
  revert m. induction path as [|mv path IH]; intros m; simpl.
  - by intros [= ->].
  - destruct (apply_move m mv) as [m1|] eqn:Hm; [|done]. simpl. intros Hr.
    rewrite (IH _ Hr). by apply apply_move_goals with mv.
Qed.

(** ** Freeze deadlocks are final *)

Lemma pback_pstep p mv : pback (pstep p mv) mv = p.
Proof. destruct p. unfold pback, pstep. simpl. f_equal; lia. Qed.

Lemma free_not_box ch : ch ∈ [FLOOR; GOAL] → ¬ is_box_char ch.
Proof. rewrite !elem_of_cons, elem_of_nil. intros [->|[->|[]]]; by compute. Qed.

Lemma free_not_wall ch : ch ∈ [FLOOR; GOAL] → ch ≠ WALL.
Proof. rewrite !elem_of_cons, elem_of_nil. intros [->|[->|[]]]; by compute. Qed.

Lemma player_not_box ch : is_player_char ch → ¬ is_box_char ch.
Proof. intros [->| ->]%player_char_cases; by compute. Qed.

Lemma player_not_wall ch : is_player_char ch → ch ≠ WALL.
Proof. intros [->| ->]%player_char_cases; by compute. Qed.

Lemma box_not_wall ch : ch ∈ [BOX; BOX_ON_GOAL] → ch ≠ WALL.
Proof. rewrite !elem_of_cons, elem_of_nil. intros [->|[->|[]]]; by compute. Qed.

(** A move leaves the walls and the boxes of a frozen set alone. *)
Lemma frozen_move_cells m F mv m' :
  frozen_set m F → apply_move m mv = Some m' →
  ∀ r c, cell_at m r c = WALL ∨ (r, c) ∈ F → get m' r c = get m r c.
Proof.
  intros HF (p & bp & bp' & chp & _ & Hp & Hpl & _ & Hb & _ & Heff)%apply_move_inv r c Hrc.
  assert (∀ ch, get m r c = Some ch → ch = WALL ∨ is_box_char ch) as Hkind.
  { intros ch Hch. rewrite <-(cell_at_get _ _ _ _ Hch).
    destruct Hrc as [?|Hin]; [by left|right]. by apply (HF _ Hin). }
  assert ((r, c) ≠ p) as Hnp.
  { intros <-. simpl in Hp.
    destruct (Hkind _ Hp) as [->|?]; [by eapply player_not_wall|].
    by eapply player_not_box. }
  destruct Heff as [chp' chq Hp' _ Hq Hin _ Hget
                  | chp' chq ch2 Hp' _ Hq Hin Hb2 Hq2 Hin2 _ Hget];
    rewrite Hget, decide_False by done.
  - case_decide as H2; [exfalso|done]. rewrite <-H2 in Hq. simpl in Hq.
    destruct (Hkind _ Hq) as [->|?]; [by eapply free_not_wall|by eapply free_not_box].
  - case_decide as H2; [exfalso|].
    + (* the pushed box is not in the frozen set *)
      rewrite <-H2 in Hq. simpl in Hq.
      destruct Hrc as [Hw|Hin'].
      { rewrite (cell_at_get _ _ _ _ Hq) in Hw. by eapply box_not_wall. }
      destruct (HF _ Hin') as [_ Hblk]. destruct (Hblk mv) as [[Hob|[Hw|Hin2']]|Hbk].
      * by rewrite H2 in Hob.
      * rewrite H2, (cell_at_get _ _ _ _ Hq2) in Hw. by eapply free_not_wall.
      * rewrite H2 in Hin2'. apply HF in Hin2' as [Hbox _].
        rewrite (cell_at_get _ _ _ _ Hq2) in Hbox. by eapply free_not_box.
      * rewrite H2, pback_pstep in Hbk. apply HF in Hbk as [Hbox _].
        rewrite (cell_at_get _ _ _ _ Hp) in Hbox. by eapply player_not_box.
    + case_decide as H3; [exfalso|done]. rewrite <-H3 in Hq2. simpl in Hq2.
      destruct (Hkind _ Hq2) as [->|?]; [by eapply free_not_wall|by eapply free_not_box].
Qed.

Lemma frozen_move m F mv m' :
  frozen_set m F → apply_move m mv = Some m' →
  frozen_set m' F ∧ ∀ q, q ∈ F → cell_at m' q.1 q.2 = cell_at m q.1 q.2.
Proof.
  intros HF Hm. pose proof (frozen_move_cells _ _ _ _ HF Hm) as Hcells.
  assert (∀ r c, cell_at m r c = WALL ∨ (r, c) ∈ F → cell_at m' r c = cell_at m r c)
    as Hcells'.
  { intros r c H. unfold cell_at. by rewrite Hcells. }
  apply apply_move_inv in Hm as (p & bp & bp' & chp & _ & _ & _ & _ & _ & Hsh & _).
  split.
  - intros q Hq. destruct (HF _ Hq) as [Hbox Hblk]. split.
    + rewrite Hcells'; [done|right; by destruct q].
    + intros mv'. destruct (Hblk mv') as [[Hob|[Hw|Hin]]|Hbk].
      * left; left. by rewrite (n_rows_shape _ _ Hsh), (n_cols_shape _ _ Hsh).
      * left; right; left. rewrite Hcells'; [done|by left].
      * left; right; right. done.
      * by right.
  - intros [r c] Hq. apply Hcells'. by right.
Qed.

Lemma frozen_replay m F path m' :
  frozen_set m F → replay m path = Some m' →
  ∀ q, q ∈ F → is_box_char (cell_at m' q.1 q.2).
Proof.
  revert m. induction path as [|mv path IH]; intros m HF; simpl.
  - intros [= <-] q Hq. by apply HF.
  - destruct (apply_move m mv) as [m1|] eqn:Hm; [|done]. simpl. intros Hr.
    destruct (frozen_move _ _ _ _ HF Hm) as [HF1 _]. by eapply IH.
Qed.

(** *** What a successful [is_box_blocked] call has established *)

Lemma pstep_opposite p mv : pstep (pstep p mv) (opposite mv) = p.
Proof. destruct p, mv; unfold pstep; simpl; f_equal; lia. Qed.

Lemma hard_blocked_mono m F F' q mv :
  F ⊆ F' → hard_blocked m F q mv → hard_blocked m F' q mv.
Proof. unfold hard_blocked. set_solver. Qed.

Lemma blocked_side_true (m : matrix)
    (rec : Z → Z → axis → gset pos → bool * gset pos)
    (edge : bool) (o : pos) (mv0 : move) (nr nc : Z) (ch ch' : gset pos) :
  (∀ nr nc ax c0 c1, rec nr nc ax c0 = (true, c1) → call_ok m (nr, nc) ax c0 c1) →
  (nr, nc) = pstep o mv0 →
  (edge → ¬ in_bounds (n_rows m) (n_cols m) nr nc) →
  o ∈ ch →
  blocked_side m rec edge nr nc (perp (move_axis mv0)) ch = (true, ch') →
  ch ⊆ ch' ∧
  ∀ F : gset pos, ch' ⊆ F →
    hard_blocked m F o mv0 ∧ ∀ q, q ∈ ch' → q ∉ ch → stuck m F q.
Proof.
  intros Hrec Hn Hedge Ho. unfold blocked_side, hard_blocked. rewrite <-Hn. simpl.
  destruct (edge || bool_decide (cell_at m nr nc = WALL)) eqn:Hew.
  { intros [= <-]. split; [done|]. intros F HF. split; [|done].
    apply orb_true_iff in Hew as [He|Hw].
    - left. apply Hedge. by rewrite He.
    - right; left. by apply bool_decide_eq_true in Hw. }
  destruct (char_in (cell_at m nr nc) [BOX; BOX_ON_GOAL]) eqn:Hbox; [|done].
  intros (Hsub & Hin & Hcall)%Hrec. split; [done|]. intros F HF.
  destruct (Hcall F HF) as [Hown Hbelow]. split; [right; right; set_solver|].
  intros q Hq Hnq. destruct (decide (q = (nr, nc))) as [->|Hne]; [|by apply Hbelow].
  split; [simpl; unfold is_box_char; by rewrite Hbox|]. intros mv.
  destruct (decide (move_axis mv = perp (move_axis mv0))) as [Hax|Hax].
  { left. by apply (Hown Hnq). }
  assert (o ∈ F) as HoF by set_solver. unfold dir_blocked, hard_blocked.
  destruct (decide (mv = mv0)) as [->|Hmv].
  - right. by rewrite Hn, pback_pstep.
  - left. right; right. rewrite Hn.
    replace mv with (opposite mv0) by (by destruct mv, mv0).
    by rewrite pstep_opposite.
Qed.

Lemma is_box_blocked_true fuel m goal_positions r c ax checked checked' :
  is_box_blocked fuel m (n_rows m) (n_cols m) goal_positions r c ax checked
  = (true, checked') →
  call_ok m (r, c) ax checked checked'.
Proof.
  revert r c ax checked checked'.
  induction fuel as [|fuel IH]; intros r c ax checked checked'; simpl; [done|].
  case_bool_decide as Hin.
  { intros [= <-]. split_and!; [done..|]. intros F HF. split; [done|]. by intros q ??. }
  case_bool_decide as Hgoal; [done|].
  assert ((r, c) ∈ ({[(r, c)]} ∪ checked : gset pos)) as Ho by set_solver.
  assert (∀ mvA mvB nA nB (edgeA edgeB : bool),
    move_axis mvA = ax → move_axis mvB = ax → mvA ≠ mvB →
    nA = pstep (r, c) mvA → nB = pstep (r, c) mvB →
    (edgeA → ¬ in_bounds (n_rows m) (n_cols m) nA.1 nA.2) →
    (edgeB → ¬ in_bounds (n_rows m) (n_cols m) nB.1 nB.2) →
    (let '(a_blocked, checked_boxes) :=
       blocked_side m (is_box_blocked fuel m (n_rows m) (n_cols m) goal_positions)
                    edgeA nA.1 nA.2 (perp ax) ({[(r, c)]} ∪ checked) in
     let '(b_blocked, checked_boxes) :=
       blocked_side m (is_box_blocked fuel m (n_rows m) (n_cols m) goal_positions)
                    edgeB nB.1 nB.2 (perp ax) checked_boxes in
     (a_blocked && b_blocked, checked_boxes)) = (true, checked') →
    call_ok m (r, c) ax checked checked') as Hboth.
  { intros mvA mvB [ra ca] [rb cb] edgeA edgeB HaxA HaxB Hab HnA HnB HeA HeB. simpl in *.
    destruct (blocked_side _ _ edgeA _ _ _ _) as [ab c1] eqn:HA.
    destruct (blocked_side _ _ edgeB _ _ _ _) as [bb c2] eqn:HB.
    intros [= Hand ->]. apply andb_true_iff in Hand as [-> ->].
    rewrite <-HaxA in HA. rewrite <-HaxB in HB.
    eapply blocked_side_true in HA as [HsubA HokA]; [|by apply IH|done..].
    eapply blocked_side_true in HB as [HsubB HokB]; [|by apply IH|done|done|set_solver].
    split_and!; [set_solver..|]. intros F HF.
    destruct (HokA F) as [HhA HsA]; [set_solver|].
    destruct (HokB F) as [HhB HsB]; [set_solver|].
    split.
    - intros _ mv Hmv.
      assert (mv = mvA ∨ mv = mvB) as [->| ->]; [|done..].
      rewrite <-Hmv in HaxA, HaxB. clear -HaxA HaxB Hab.
      destruct mv, mvA, mvB; simpl in *; try done; auto.
    - intros q Hq Hnq Hne. destruct (decide (q ∈ c1)) as [Hq1|Hq1].
      + apply HsA; set_solver.
      + apply HsB; set_solver. }
  destruct ax.
  - apply (Hboth L R (r, c - 1) (r, c + 1)); try done.
    + unfold pstep. simpl. f_equal; lia.
    + unfold pstep. simpl. f_equal; lia.
    + simpl. intros ->%bool_decide_unpack. unfold in_bounds.
      rewrite bool_decide_spec. lia.
    + simpl. intros ->%bool_decide_unpack. unfold in_bounds.
      rewrite bool_decide_spec. lia.
  - apply (Hboth U D (r - 1, c) (r + 1, c)); try done.
    + unfold pstep. simpl. f_equal; lia.
    + unfold pstep. simpl. f_equal; lia.
    + simpl. intros ->%bool_decide_unpack. unfold in_bounds.
      rewrite bool_decide_spec. lia.
    + simpl. intros ->%bool_decide_unpack. unfold in_bounds.
      rewrite bool_decide_spec. lia.
Qed.

Lemma is_level_solved_same box_positions goal_positions x :
  is_level_solved box_positions goal_positions = true →
  x ∈ box_positions ↔ x ∈ goal_positions.
Proof.
  unfold is_level_solved. case_match; [done|].
  intros [_ Heq%bool_decide_eq_true]%andb_true_iff.
  by rewrite <-(elem_of_list_to_set (C := gset pos) x box_positions), Heq,
    elem_of_list_to_set.
Qed.

Lemma box_frozen_set m goal_positions p :
  p ∈ (get_player_and_boxes_positions m).2 →
  box_frozen m goal_positions p = true →
  ∃ F, p ∈ F ∧ frozen_set m F.
Proof.
  intros Hbox. destruct p as [r c]. unfold box_frozen. cbn [fst snd].
  destruct (is_box_blocked _ _ _ _ _ _ _ Horizontal _) as [bh ch] eqn:Hh.
  destruct (is_box_blocked _ _ _ _ _ _ _ Vertical _) as [bv cv] eqn:Hv.
  cbn [fst snd]. intros [-> ->]%andb_true_iff.
  apply is_box_blocked_true in Hh as (_ & Hph & Hh), Hv as (_ & Hpv & Hv).
  exists (ch ∪ cv). split; [set_solver|].
  destruct (Hh (ch ∪ cv)) as [Hhp Hhq]; [set_solver|].
  destruct (Hv (ch ∪ cv)) as [Hvp Hvq]; [set_solver|].
  intros q Hq. destruct (decide (q = (r, c))) as [->|Hne].
  - split.
    + apply elem_of_boxes in Hbox as [ch0 [Hget Hb]]. simpl.
      by rewrite (cell_at_get _ _ _ _ Hget).
    + intros mv. left. destruct (move_axis mv) eqn:Hax; [apply Hhp|apply Hvp]; set_solver.
  - apply elem_of_union in Hq as [Hq|Hq]; [apply Hhq|apply Hvq]; set_solver.
Qed.

(** C3. Freeze-detector soundness: from a grid on which
    [detect_freeze_deadlocks] answers [True] (called, as [has_deadlock]
    calls it, with the boxes and goals of the grid), no sequence of moves the
    solver's transition accepts reaches a solved grid. *)
Theorem freeze_deadlock_sound m path m' :
  detect_freeze_deadlocks m (get_player_and_boxes_positions m).2
                          (get_goal_positions m) = true →
  replay m path = Some m' →
  is_solved m' = false.
Proof.
  unfold detect_freeze_deadlocks. intros Hdet Hreplay.
  apply existsb_exists in Hdet as [p [Hp Hfrozen]].
  apply list_elem_of_In in Hp.
  case_bool_decide as Hgoal; [done|].
  destruct (box_frozen_set _ _ _ Hp Hfrozen) as [F [HpF HF]].
  pose proof (frozen_replay _ _ _ _ HF Hreplay _ HpF) as Hbox.
  apply not_true_is_false. intros Hsolved.
  apply (is_level_solved_same _ _ p) in Hsolved.
  rewrite (replay_goals _ _ _ _ Hreplay) in Hsolved.
  apply Hgoal, Hsolved. destruct p as [r c]. apply elem_of_boxes.
  exists (cell_at m' r c). split; [|done].
  apply cell_at_coded; [done|]. intros Hnul. simpl in Hbox. by rewrite Hnul in Hbox.
Qed.

Lemma freeze_deadlock_sound_witness :
  is_solved (set_cell (set_cell frozen_pocket 1 3 PLAYER_ON_GOAL) 2 3 FLOOR) = false.
Proof.
  apply (freeze_deadlock_sound frozen_pocket [U]); reflexivity.
Defined.

(** ** The solver only returns solutions *)

Lemma elem_of_remove_first x y l :
  NoDup l → y ∈ remove_first x l ↔ y ∈ l ∧ y ≠ x.
Proof.
  induction 1 as [|z l Hz Hnd IH]; simpl.
  - set_solver.
  - case_decide as Hxz; [subst|]; set_solver.
Qed.

Lemma NoDup_remove_first x l : NoDup l → NoDup (remove_first x l).
Proof.
  induction 1 as [|z l Hz Hnd IH]; simpl; [constructor|].
  case_decide; [done|]. constructor; [|done].
  rewrite elem_of_remove_first by done. set_solver.
Qed.

Lemma length_remove_first x l :
  x ∈ l → S (length (remove_first x l)) = length l.
Proof.
  induction l as [|z l IH]; simpl; [by intros ?%elem_of_nil|].
  case_decide as Hxz; [done|]. intros [?|Hin]%elem_of_cons; [done|].
  simpl. by rewrite IH.
Qed.

Lemma NoDup_boxes m : NoDup (get_player_and_boxes_positions m).2.
Proof. rewrite scan_spec. apply NoDup_positions_where. Qed.

Lemma NoDup_goals m : NoDup (get_goal_positions m).
Proof. rewrite goals_spec. apply NoDup_positions_where. Qed.

Lemma on_goal_box ch : is_box_char (on_goal ch BOX_ON_GOAL BOX).
Proof. unfold on_goal. by destruct (is_goal_char ch). Qed.

Lemma leave_not_box ch : ¬ is_box_char (on_goal ch GOAL FLOOR).
Proof. unfold on_goal. destruct (is_goal_char ch); by compute. Qed.

Lemma enter_not_box ch : ¬ is_box_char (on_goal ch PLAYER_ON_GOAL PLAYER).
Proof. unfold on_goal. destruct (is_goal_char ch); by compute. Qed.

Lemma box_char_in ch : ch ∈ [BOX; BOX_ON_GOAL] → is_box_char ch.
Proof. intros H. by apply bool_decide_pack. Qed.

Lemma some_such {A} (P : A → Prop) (a : A) :
  (∃ x, Some a = Some x ∧ P x) ↔ P a.
Proof. naive_solver. Qed.

(** The box list the solver maintains across a move holds the boxes of the
    grid it has built. *)
Lemma move_effect_boxes m p mv m' bp' :
  move_effect m p (get_player_and_boxes_positions m).2 mv m' bp' →
  NoDup bp'
  ∧ length bp' = length (get_player_and_boxes_positions m).2
  ∧ ∀ x, x ∈ bp' ↔ x ∈ (get_player_and_boxes_positions m').2.
Proof.
  pose proof (NoDup_boxes m) as Hnd.
  intros [chp chq Hp Hpl Hq Hin -> Hget | chp chq ch2 Hp Hpl Hq Hin _ Hq2 Hin2 -> Hget].
  - split_and!; [done..|]. intros [r c]. rewrite !elem_of_boxes, Hget.
    case_decide as H1; [|case_decide as H2; [|done]].
    + rewrite <-H1 in Hp. simpl in Hp. rewrite Hp, !some_such.
      split; intros Hb; exfalso; [by eapply player_not_box|by eapply leave_not_box].
    + rewrite <-H2 in Hq. simpl in Hq. rewrite Hq, !some_such.
      split; intros Hb; exfalso; [by eapply free_not_box|by eapply enter_not_box].
  - assert (pstep p mv ∈ (get_player_and_boxes_positions m).2) as Hbox.
    { destruct (pstep p mv) as [r c]. apply elem_of_boxes. exists chq.
      split; [done|]. by apply box_char_in. }
    assert (pstep (pstep p mv) mv ∉ (get_player_and_boxes_positions m).2) as Hfree.
    { destruct (pstep (pstep p mv) mv) as [r c]. rewrite elem_of_boxes.
      simpl in Hq2. rewrite Hq2, some_such. by apply free_not_box. }
    split_and!.
    + apply NoDup_app. split_and!; [by apply NoDup_remove_first| |apply NoDup_singleton].
      intros x Hx ->%list_elem_of_singleton.
      apply elem_of_remove_first in Hx as [Hx _]; done.
    + rewrite length_app. simpl. rewrite <-(length_remove_first _ _ Hbox). lia.
    + intros [r c]. rewrite elem_of_app, elem_of_remove_first, list_elem_of_singleton by done.
      rewrite !elem_of_boxes, Hget.
      pose proof (pstep_ne (pstep p mv) mv) as Hne.
      case_decide as H1; [|case_decide as H2; [|case_decide as H3]].
      * rewrite <-H1 in Hp. simpl in Hp. rewrite Hp, !some_such.
        split.
        -- intros [[Hb _]|Heq]; exfalso; [by eapply player_not_box|].
           rewrite H1 in Heq. by eapply pstep2_ne.
        -- intros Hb. exfalso. by eapply leave_not_box.
      * split.
        -- intros [[_ ?]|Heq]; [done|]. congruence.
        -- rewrite some_such. intros Hb. exfalso. by eapply enter_not_box.
      * split; [|by right]. intros _. rewrite some_such. apply on_goal_box.
      * split; [|by left]. intros [[? _]|?]; done.
Qed.

Lemma replay_app m p1 p2 :
  replay m (p1 ++ p2) = replay m p1 ≫= λ m1, replay m1 p2.
Proof.
  revert m. induction p1 as [|mv p1 IH]; intros m; simpl; [done|].
  destruct (apply_move m mv); simpl; [apply IH|done].
Qed.

Lemma is_level_solved_ext b1 b2 g1 g2 :
  (∀ x, x ∈ b1 ↔ x ∈ b2) → (∀ x, x ∈ g1 ↔ x ∈ g2) →
  is_level_solved b1 g1 = is_level_solved b2 g2.
Proof.
  intros Hb Hg. unfold is_level_solved.
  assert (∀ l1 l2 : list pos, (∀ x, x ∈ l1 ↔ x ∈ l2) →
            bool_decide (l1 = []) = bool_decide (l2 = [])) as Hnil.
  { intros l1 l2 H. apply bool_decide_ext.
    split; intros ->; [destruct l2 as [|y ?]|destruct l1 as [|y ?]]; try done;
      specialize (H y); set_solver. }
  rewrite (Hnil _ _ Hb), (Hnil _ _ Hg).
  assert (list_to_set b1 = (list_to_set b2 : gset pos)) as -> by set_solver.
  assert (list_to_set g1 = (list_to_set g2 : gset pos)) as -> by set_solver.
  done.
Qed.

Lemma solver_move_apply m p bp mv m' p' bp' :
  get_player_and_boxes_positions m = (Some p, bp) →
  solver_move m p bp mv = Some (m', p', bp') →
  apply_move m mv = Some m'
  ∧ p' = pstep p mv
  ∧ ∀ x, x ∈ bp' ↔ x ∈ (get_player_and_boxes_positions m').2.
Proof.
  intros Hscan Hmove. unfold apply_move. rewrite Hscan, Hmove. split; [done|].
  destruct (scan_player_cell _ _ _ Hscan) as [chp [Hp Hpl]].
  destruct (solver_move_effect _ _ _ _ _ _ _ _ Hp Hpl Hmove) as (-> & _ & _ & Heff).
  split; [done|].
  replace bp with (get_player_and_boxes_positions m).2 in Heff by by rewrite Hscan.
  by apply move_effect_boxes in Heff as (_ & _ & ?).
Qed.

Lemma try_move_sound m0 goal_positions cm pp bp path acc mv :
  get_player_and_boxes_positions cm = (Some pp, bp) →
  replay m0 path = Some cm →
  result_sound m0 goal_positions acc →
  result_sound m0 goal_positions (try_move goal_positions cm pp bp path acc mv).
Proof.
  intros Hscan Hpath Hacc. destruct acc as [found|queue visited]; simpl; [done|].
  destruct (solver_move cm pp bp mv) as [[[nm np] nbp]|] eqn:Hmove; [|done].
  destruct (solver_move_apply _ _ _ _ _ _ _ Hscan Hmove) as (Happ & -> & Hboxes).
  assert (replay m0 (path ++ [mv]) = Some nm) as Hnew.
  { rewrite replay_app, Hpath. simpl. by rewrite Happ. }
  case_bool_decide; [done|].
  destruct (is_level_solved nbp goal_positions) eqn:Hsolved.
  - exists nm. split; [done|]. by rewrite <-(is_level_solved_ext nbp _ goal_positions).
  - destruct (has_deadlock nm); [done|]. simpl. apply Forall_app. split; [done|].
    by apply Forall_singleton.
Qed.

Lemma try_moves_sound m0 goal_positions cm pp bp path acc mvs :
  get_player_and_boxes_positions cm = (Some pp, bp) →
  replay m0 path = Some cm →
  result_sound m0 goal_positions acc →
  result_sound m0 goal_positions
    (foldl (try_move goal_positions cm pp bp path) acc mvs).
Proof.
  intros Hscan Hpath. revert acc.
  induction mvs as [|mv mvs IH]; intros acc Hacc; simpl; [done|].
  by apply IH, try_move_sound.
Qed.

Lemma bfs_loop_S fuel goal_positions queue visited :
  bfs_loop (S fuel) goal_positions queue visited
  = match queue with
    | [] => None
    | (current_matrix, current_path) :: queue' =>
        match get_player_and_boxes_positions current_matrix with
        | (None, _) => None
        | (Some current_player_pos, current_box_positions) =>
            match foldl (try_move goal_positions current_matrix current_player_pos
                                  current_box_positions current_path)
                        (Going queue' visited) MOVES with
            | Found path => Some path
            | Going queue'' visited' => bfs_loop fuel goal_positions queue'' visited'
            end
        end
    end.
Proof. done. Qed.

Lemma bfs_loop_sound fuel m0 goal_positions queue visited path :
  Forall (path_ok m0) queue →
  bfs_loop fuel goal_positions queue visited = Some path →
  solves m0 goal_positions path.
Proof.
  revert queue visited.
  induction fuel as [|fuel IH]; intros queue visited Hq; [done|].
  rewrite bfs_loop_S.
  destruct queue as [|[cm cpath] queue]; [done|].
  apply Forall_cons in Hq as [Hcm Hq].
  destruct (get_player_and_boxes_positions cm) as [[pp|] bp] eqn:Hscan; [|done].
  pose proof (try_moves_sound m0 goal_positions cm pp bp cpath
                (Going queue visited) MOVES Hscan Hcm Hq) as Hres.
  destruct (foldl _ _ MOVES) as [found|queue' visited']; simpl in Hres.
  - by intros [= ->].
  - by apply IH.
Qed.

(** A path returned by the solver replays, move by move, to a solved grid. *)
Theorem solve_sound m max_iterations path :
  solve_sokoban_bfs m max_iterations = Some path →
  ∃ m', replay m path = Some m' ∧ is_solved m' = true.
Proof.
  unfold solve_sokoban_bfs, is_solved.
  destruct (get_player_and_boxes_positions m) as [[pp|] bp] eqn:Hscan; [|done].
  case_match; [done|].
  assert (solves m (get_goal_positions m) path →
          ∃ m', replay m path = Some m'
                ∧ is_level_solved (get_player_and_boxes_positions m').2
                                  (get_goal_positions m') = true) as Hfinish.
  { intros [m' [Hr Hs]]. exists m'. split; [done|]. rewrite <-Hs.
    apply is_level_solved_ext; [done|]. intros x. by eapply replay_goals. }
  destruct (is_level_solved bp (get_goal_positions m)) eqn:Hsolved.
  - intros [= <-]. apply Hfinish. exists m. split; [done|]. by rewrite Hscan.
  - intros Hloop. apply Hfinish. eapply bfs_loop_sound; [|done].
    by apply Forall_singleton.
Qed.

(** ** Moves keep the number of boxes and of goals *)

Lemma apply_move_box_count m mv m' :
  apply_move m mv = Some m' →
  length (get_player_and_boxes_positions m').2
  = length (get_player_and_boxes_positions m).2.
Proof.
  intros (p & bp & bp' & chp & Hscan & _ & _ & _ & _ & _ & Heff)%apply_move_inv.
  replace bp with (get_player_and_boxes_positions m).2 in Heff by by rewrite Hscan.
  apply move_effect_boxes in Heff as (Hnd & <- & Hsame).
  symmetry. apply Permutation_length, NoDup_Permutation; [done|apply NoDup_boxes|done].
Qed.

Lemma replay_box_count m path m' :
  replay m path = Some m' →
  length (get_player_and_boxes_positions m').2
  = length (get_player_and_boxes_positions m).2.
Proof.
  revert m. induction path as [|mv path IH]; intros m; simpl.
  - by intros [= ->].
  - destruct (apply_move m mv) as [m1|] eqn:Hm; [|done]. simpl. intros Hr.
    rewrite (IH _ Hr). by apply apply_move_box_count with mv.
Qed.

Lemma replay_goal_count m path m' :
  replay m path = Some m' →
  length (get_goal_positions m') = length (get_goal_positions m).
Proof.
  intros Hr. apply Permutation_length, NoDup_Permutation; [apply NoDup_goals..|].
  intros x. by eapply replay_goals.
Qed.

Lemma is_solved_counts m :
  is_solved m = true →
  length (get_player_and_boxes_positions m).2 = length (get_goal_positions m).
Proof.
  intros Hs. apply Permutation_length, NoDup_Permutation;
    [apply NoDup_boxes|apply NoDup_goals|].
  intros x. by apply is_level_solved_same.
Qed.

(** The solver finds nothing on a grid whose boxes and goals differ in
    number: no move changes either number, and a solved grid has as many
    boxes as goals. *)
Lemma solve_needs_equal_counts m max_iterations path :
  solve_sokoban_bfs m max_iterations = Some path →
  length (get_player_and_boxes_positions m).2 = length (get_goal_positions m).
Proof.
  intros (m' & Hr & Hs)%solve_sound.
  rewrite <-(replay_box_count _ _ _ Hr), <-(replay_goal_count _ _ _ Hr).
  by apply is_solved_counts.
Qed.

(** C8. Fallback integrity fails in the code: the fourth and fifth entries
    of the bank hold two boxes and three goals, and the solver finds nothing
    on them, whatever the iteration budget. *)
Theorem fallback_unsolved max_iterations :
  solve_sokoban_bfs fallback_3 max_iterations = None
  ∧ solve_sokoban_bfs fallback_4 max_iterations = None.
Proof.
  split.
  - destruct (solve_sokoban_bfs fallback_3 max_iterations) as [path|] eqn:Hs; [|done].
    by apply solve_needs_equal_counts in Hs.
  - destruct (solve_sokoban_bfs fallback_4 max_iterations) as [path|] eqn:Hs; [|done].
    by apply solve_needs_equal_counts in Hs.
Qed.

(** ** Counting cells *)

Lemma length_row_positions p r s (row : list ascii) :
  length (row_positions p r (enumerate_from s row))
  = length (filter (λ ch, p ch) row).
Proof.
  unfold row_positions. rewrite length_fmap.
  revert s. induction row as [|ch row IH]; intros s; simpl; [done|].
  rewrite !filter_cons. simpl. destruct (p ch); simpl; by rewrite IH.
Qed.

Lemma length_positions_from p (m : matrix) s :
  length (enumerate_from s m ≫= λ x, row_positions p x.1 (enumerate x.2))
  = count_cells p m.
Proof.
  unfold count_cells.
  revert s. induction m as [|row m IH]; intros s; csimpl; [done|].
  rewrite filter_app, !length_app, IH. f_equal. apply length_row_positions.
Qed.

Lemma length_positions_where p m :
  length (positions_where p m) = count_cells p m.
Proof. apply length_positions_from. Qed.

Lemma positions_where_nil p m : positions_where p m = [] ↔ count_cells p m = 0%nat.
Proof. rewrite <-length_positions_where. by destruct (positions_where p m). Qed.

Lemma count_boxes m :
  length (get_player_and_boxes_positions m).2 = count_cells is_box_char m.
Proof. rewrite scan_spec. apply length_positions_where. Qed.

Lemma count_goals m : length (get_goal_positions m) = count_cells is_goal_char m.
Proof. rewrite goals_spec. apply length_positions_where. Qed.

Lemma no_player m :
  (get_player_and_boxes_positions m).1 = None ↔ count_cells is_player_char m = 0%nat.
Proof.
  rewrite scan_spec, <-positions_where_nil. simpl.
  destruct (positions_where is_player_char m) as [|x l] using rev_ind; [done|].
  rewrite last_snoc. split; [done|]. by destruct l.
Qed.

Lemma box_on_goal_char ch :
  is_box_char ch && is_goal_char ch = is_char BOX_ON_GOAL ch.
Proof.
  unfold is_char. case_bool_decide as H; [by subst|].
  destruct (is_box_char ch) eqn:Hb; [|done]. simpl.
  apply Is_true_true, bool_decide_unpack in Hb.
  apply elem_of_cons in Hb as [->|Hb]; [done|].
  by apply list_elem_of_singleton in Hb.
Qed.

Lemma plain_box_char ch :
  is_box_char ch && negb (is_goal_char ch) = is_char BOX ch.
Proof.
  unfold is_char. case_bool_decide as H; [by subst|].
  destruct (is_box_char ch) eqn:Hb; [|done]. simpl.
  apply Is_true_true, bool_decide_unpack in Hb.
  apply elem_of_cons in Hb as [->|Hb]; [done|].
  by apply list_elem_of_singleton in Hb as ->.
Qed.

Lemma count_cells_ext p q m : (∀ ch, p ch = q ch) → count_cells p m = count_cells q m.
Proof.
  intros H. unfold count_cells. f_equal. apply list_filter_iff. intros ch.
  by rewrite H.
Qed.

Lemma count_cells_split p q m :
  count_cells p m
  = (count_cells (λ ch, p ch && q ch) m + count_cells (λ ch, p ch && negb (q ch)) m)%nat.
Proof.
  unfold count_cells. induction (concat m) as [|ch l IH]; [done|].
  rewrite !filter_cons. destruct (p ch), (q ch); simpl; lia.
Qed.

(** The boxes the validity check counts as standing on goals are the
    [BOX_ON_GOAL] cells. *)
Lemma count_boxes_on_goals_spec m :
  count_boxes_on_goals (get_player_and_boxes_positions m).2 (get_goal_positions m)
  = count_cells (is_char BOX_ON_GOAL) m.
Proof.
  unfold count_boxes_on_goals.
  rewrite <-(count_cells_ext _ _ _ box_on_goal_char), <-length_positions_where.
  apply Permutation_length, NoDup_Permutation.
  - apply NoDup_filter, NoDup_boxes.
  - apply NoDup_positions_where.
  - intros [r c]. rewrite list_elem_of_filter, elem_of_boxes, elem_of_goals,
      elem_of_positions_where.
    split.
    + intros [[ch1 [H1 Hg]] [ch2 [H2 Hb]]]. exists ch1. split; [done|].
      simplify_eq. by apply andb_True.
    + intros [ch [H [Hb Hg]%andb_True]]. split; by exists ch.
Qed.

(** ** Locating the player *)

Lemma last_row_positions p r s (row : list ascii) c :
  last (row_positions p r (enumerate_from s row)) = Some (r, c) →
  ∀ c', (r, c') ∈ row_positions p r (enumerate_from s row) → c' ≤ c.
Proof.
  unfold row_positions.
  revert s. induction row as [|ch row IH]; intros s; csimpl; [done|].
  rewrite filter_cons. csimpl. destruct (p ch); csimpl; [|apply IH].
  rewrite last_cons.
  destruct (last _) as [[r1 c1]|] eqn:Hlast.
  - intros [= -> ->] c' [[= ->]|Hin]%elem_of_cons; [|by eapply IH].
    apply last_Some_elem_of in Hlast.
    apply list_elem_of_fmap in Hlast as [[c2 ch2] [[= ->] Hin]].
    apply list_elem_of_filter in Hin as [_ Hin].
    apply elem_of_enumerate_from in Hin. lia.
  - intros [= ->] c' [[= ->]|Hin]%elem_of_cons; [lia|].
    apply last_None in Hlast. rewrite Hlast in Hin. by apply elem_of_nil in Hin.
Qed.

Lemma last_positions_from p (m : matrix) s r c :
  last (enumerate_from s m ≫= λ x, row_positions p x.1 (enumerate x.2)) = Some (r, c) →
  ∀ r' c', (r', c') ∈ (enumerate_from s m ≫= λ x, row_positions p x.1 (enumerate x.2)) →
           pos_le (r', c') (r, c).
Proof.
  revert s. induction m as [|row m IH]; intros s; csimpl; [done|].
  rewrite last_app.
  destruct (last (enumerate_from (s + 1) m ≫= _)) as [[r1 c1]|] eqn:Hlast.
  - intros [= -> ->] r' c' [Hin|Hin]%elem_of_app; [|by eapply IH].
    left. simpl.
    apply list_elem_of_fmap in Hin as [[c2 ch2] [[= -> ->] _]].
    apply last_Some_elem_of, list_elem_of_bind in Hlast as [[r2 row2] [Hin2 Hrow]].
    apply list_elem_of_fmap in Hin2 as [[c3 ch3] [[= -> ->] _]].
    apply elem_of_enumerate_from in Hrow. simpl. lia.
  - intros Hl r' c' [Hin|Hin]%elem_of_app.
    + assert (r = s) as ->.
      { apply last_Some_elem_of, list_elem_of_fmap in Hl as [[? ?] [[= -> ->] _]]. done. }
      assert (r' = s) as ->.
      { apply list_elem_of_fmap in Hin as [[? ?] [[= -> ->] _]]. done. }
      right. split; [done|]. simpl. by eapply last_row_positions.
    + apply last_None in Hlast. rewrite Hlast in Hin. by apply elem_of_nil in Hin.
Qed.

(** C5 (as amended). [get_player_and_boxes_positions] reports no player
    exactly when the grid holds no player marker; otherwise it returns the
    position of a player marker, the last one in row-major order. *)
Theorem locate_last_marker m :
  ((get_player_and_boxes_positions m).1 = None
   ↔ count_cells is_player_char m = 0%nat)
  ∧ ∀ p, (get_player_and_boxes_positions m).1 = Some p →
      (∃ ch, get m p.1 p.2 = Some ch ∧ is_player_char ch)
      ∧ ∀ r c ch, get m r c = Some ch → is_player_char ch → pos_le (r, c) p.
Proof.
  split; [apply no_player|]. intros [r c] Hp. split.
  - destruct (get_player_and_boxes_positions m) as [pl bp] eqn:Hscan.
    simpl in Hp. subst pl. by eapply scan_player_cell.
  - intros r' c' ch Hget Hch. rewrite scan_spec in Hp. simpl in Hp.
    eapply last_positions_from; [done|].
    apply elem_of_positions_where. eauto.
Qed.

(** C5, as stated, fails: a grid with two player markers is not reported as
    having no player. *)
Lemma locate_two_players :
  count_cells is_player_char two_players = 2%nat
  ∧ (get_player_and_boxes_positions two_players).1 = Some (2, 3).
Proof. split; reflexivity. Qed.

(** ** Degenerate grids and level validity *)

(** C10. A grid without player marker, without box or without goal is
    classified as deadlocked. *)
Theorem has_deadlock_degenerate m :
  count_cells is_player_char m = 0%nat
  ∨ count_cells is_box_char m = 0%nat
  ∨ count_cells is_goal_char m = 0%nat →
  has_deadlock m = true.
Proof.
  unfold has_deadlock. rewrite <-no_player, <-!positions_where_nil, <-goals_spec.
  rewrite scan_spec. simpl.
  destruct (last (positions_where is_player_char m)); [|done].
  intros [?|[->| ->]]; [done|done|]. by rewrite orb_true_r.
Qed.

Lemma count_box_kinds m :
  count_cells is_box_char m
  = (count_cells (is_char BOX_ON_GOAL) m + count_cells (is_char BOX) m)%nat.
Proof.
  rewrite (count_cells_split is_box_char is_goal_char).
  by rewrite (count_cells_ext _ _ _ box_on_goal_char),
    (count_cells_ext _ _ _ plain_box_char).
Qed.

Lemma is_valid_level_spec m :
  is_valid_level m = true ↔
    count_cells is_player_char m ≠ 0%nat
    ∧ count_cells is_goal_char m ≠ 0%nat
    ∧ count_cells is_box_char m = count_cells is_goal_char m
    ∧ count_cells (is_char BOX) m ≠ 0%nat
    ∧ (count_cells (is_char BOX_ON_GOAL) m ≤ 1)%nat
    ∧ has_deadlock m = false.
Proof.
  unfold is_valid_level.
  pose proof (no_player m) as Hpl. pose proof (count_boxes m) as Hb.
  pose proof (count_goals m) as Hg. pose proof (count_boxes_on_goals_spec m) as Hbg.
  pose proof (count_box_kinds m) as Hk.
  destruct (get_player_and_boxes_positions m) as [pl bp]. simpl in *.
  rewrite Hbg, Hb, Hg.
  assert (bp = [] ↔ count_cells is_box_char m = 0%nat) as Hbnil.
  { rewrite <-Hb. by destruct bp. }
  assert (get_goal_positions m = [] ↔ count_cells is_goal_char m = 0%nat) as Hgnil.
  { rewrite <-Hg. by destruct (get_goal_positions m). }
  destruct pl as [p|]; simpl.
  2: { split; [done|]. intros (H & _). exfalso. apply H. by apply Hpl. }
  case_bool_decide as H1; simpl.
  { split; [done|]. intros (_ & _ & _ & H4 & _). apply Hbnil in H1. lia. }
  case_bool_decide as H2; simpl.
  { split; [done|]. intros (_ & H & _). by apply Hgnil in H2. }
  case_bool_decide as H3.
  { split; [done|]. by intros (_ & _ & H & _). }
  case_bool_decide as H4.
  { split; [done|]. intros (_ & _ & _ & H & _). lia. }
  case_bool_decide as H5.
  { split; [done|]. intros (_ & _ & _ & _ & H & _). lia. }
  destruct (has_deadlock m).
  { split; [done|]. by intros (_ & _ & _ & _ & _ & ?). }
  split; [intros _|done]. split_and!; [|by rewrite <-Hgnil|done|lia|lia|done].
  intros H. by apply Hpl in H.
Qed.

(** C7. [is_valid_level] answers [False] when the player or the goals are
    missing, when boxes and goals differ in number, when no box stands off a
    goal, and when more than one box stands on a goal; with exactly one box
    on a goal the level is accepted whenever the other checks pass. *)
Theorem is_valid_level_rejects m :
  (count_cells is_player_char m = 0%nat ∨ count_cells is_goal_char m = 0%nat →
   is_valid_level m = false)
  ∧ (count_cells is_box_char m ≠ count_cells is_goal_char m →
     is_valid_level m = false)
  ∧ (count_cells (is_char BOX) m = 0%nat → is_valid_level m = false)
  ∧ ((1 < count_cells (is_char BOX_ON_GOAL) m)%nat → is_valid_level m = false)
  ∧ (count_cells (is_char BOX_ON_GOAL) m = 1%nat →
     count_cells is_player_char m ≠ 0%nat →
     count_cells is_box_char m = count_cells is_goal_char m →
     count_cells (is_char BOX) m ≠ 0%nat →
     has_deadlock m = false →
     is_valid_level m = true).
Proof.
  pose proof (is_valid_level_spec m) as Hspec.
  pose proof (count_box_kinds m) as Hk.
  destruct (is_valid_level m).
  - destruct Hspec as [Hspec _]. specialize (Hspec eq_refl).
    split_and!; intros; try done; lia || tauto.
  - split_and!; try done. intros. apply Hspec. split_and!; try done; lia.
Qed.

Lemma is_valid_level_rejects_witness :
  is_valid_level two_boxes_one_goal = false ∧ is_valid_level one_box_home = true.
Proof.
  split.
  - destruct (is_valid_level_rejects two_boxes_one_goal) as (_ & H & _).
    apply H. vm_compute. lia.
  - destruct (is_valid_level_rejects one_box_home) as (_ & _ & _ & _ & H).
    apply H; vm_compute; (reflexivity || lia).
Defined.

Lemma has_deadlock_degenerate_witness : has_deadlock [["#"; "$"; "."; "#"]]%char = true.
Proof. apply has_deadlock_degenerate. by left. Defined.

Lemma locate_last_marker_witness : pos_le (1, 1) (2, 3).
Proof.
  destruct (locate_last_marker two_players) as [_ H].
  destruct (H (2, 3) eq_refl) as [_ Hle].
  by apply (Hle 1 1 PLAYER).
Defined.

(** ** The interactive move: [movePlayer] of [sokoban.py] on a [Level] *)

Lemma py_index_nonneg {A} (l : list A) i : 0 ≤ i → py_index l i = l !! Z.to_nat i.
Proof. intros. unfold py_index. by rewrite decide_True. Qed.

Lemma py_get m y x : 0 ≤ y → 0 ≤ x →
  py_index m y ≫= (λ row, py_index row x) = get m y x.
Proof.
  intros Hy Hx. rewrite py_index_nonneg by done. unfold get.
  rewrite decide_True by done. destruct (m !! Z.to_nat y); simpl; [|done].
  by rewrite py_index_nonneg.
Qed.

Lemma get_is_Some m y x :
  is_Some (get m y x)
  ↔ 0 ≤ y ∧ 0 ≤ x ∧ ∃ row, m !! Z.to_nat y = Some row ∧ x < Z.of_nat (length row).
Proof.
  unfold get. case_decide as H.
  - destruct (m !! Z.to_nat y) as [row|] eqn:Hrow; simpl.
    + rewrite lookup_lt_is_Some. split.
      * intros. split_and!; [lia..|]. exists row. split; [done|lia].
      * intros (_ & _ & row' & [= ->] & ?). lia.
    + split; [by intros [? ?]|]. by intros (_ & _ & ? & ? & _).
  - split; [by intros [? ?]|]. intros (? & ? & _). lia.
Qed.

Lemma in_grid_guard_spec m y x :
  in_grid_guard m y x = Some (bool_decide (is_Some (get m y x))).
Proof.
  unfold in_grid_guard. case_decide as Hy.
  - rewrite py_index_nonneg by lia.
    destruct (m !! Z.to_nat y) as [row|] eqn:Hrow; simpl.
    + f_equal. apply bool_decide_ext. rewrite get_is_Some. split.
      * intros. split_and!; [lia..|]. exists row. split; [done|lia].
      * intros (_ & ? & row' & Hrow' & ?). simplify_eq. lia.
    + exfalso. apply lookup_ge_None in Hrow. lia.
  - f_equal. symmetry. apply bool_decide_eq_false. rewrite get_is_Some.
    intros (? & _ & row & Hrow%lookup_lt_Some & _). lia.
Qed.

Lemma py_store2_spec m y x v :
  is_Some (get m y x) → py_store2 m y x v = Some (set_cell m y x v).
Proof.
  intros (Hy & Hx & row & Hrow & Hlen)%get_is_Some.
  unfold py_store2, set_cell. rewrite py_index_nonneg, Hrow by done. simpl.
  unfold py_store.
  rewrite (decide_True (P := 0 ≤ x)) by done.
  rewrite (decide_True (P := 0 ≤ x < _)) by lia. simpl.
  rewrite ?(decide_True (P := 0 ≤ y)) by done.
  rewrite (decide_True (P := 0 ≤ y < _)) by (apply lookup_lt_Some in Hrow; lia).
  f_equal. apply list_eq. intros i.
  destruct (decide (i = Z.to_nat y)) as [->|Hne].
  - rewrite list_lookup_alter_eq, Hrow. simpl.
    apply list_lookup_insert_eq. by eapply lookup_lt_Some.
  - by rewrite list_lookup_alter_ne, list_lookup_insert_ne.
Qed.

Lemma find_in_row_spec s row x :
  find_in_row s row = Some x →
  s ≤ x ∧ ∃ ch, row !! Z.to_nat (x - s) = Some ch ∧ is_player_char ch.
Proof.
  revert s. induction row as [|cell row IH]; intros s; simpl; [done|].
  destruct (bool_decide (cell = PLAYER) || bool_decide (cell = PLAYER_ON_GOAL)) eqn:Hc.
  - intros [= <-]. split; [lia|]. exists cell. rewrite Z.sub_diag. split; [done|].
    apply orb_true_iff in Hc as [->%bool_decide_eq_true| ->%bool_decide_eq_true]; done.
  - intros [Hle [ch [Hch Hp]]]%IH. split; [lia|]. exists ch. split; [|done].
    by replace (Z.to_nat (x - s)) with (S (Z.to_nat (x - (s + 1)))) by lia.
Qed.

Lemma find_player_spec s m x y :
  find_player s m = Some (x, y) →
  s ≤ y ∧ 0 ≤ x
  ∧ ∃ ch, m !! Z.to_nat (y - s) ≫= (λ row, row !! Z.to_nat x) = Some ch
          ∧ is_player_char ch.
Proof.
  revert s. induction m as [|row m IH]; intros s; simpl; [done|].
  destruct (find_in_row 0 row) as [x0|] eqn:Hrow.
  - intros [= <- <-]. apply find_in_row_spec in Hrow as [Hle [ch [Hch Hp]]].
    split_and!; [lia..|]. exists ch. rewrite Z.sub_diag. simpl.
    by rewrite Z.sub_0_r in Hch.
  - intros (Hle & Hx & ch & Hch & Hp)%IH. split_and!; [lia..|]. exists ch.
    split; [|done].
    by replace (Z.to_nat (y - s)) with (S (Z.to_nat (y - (s + 1)))) by lia.
Qed.

Lemma getPlayerPosition_spec lv x y :
  getPlayerPosition lv = Some (x, y) →
  ∃ ch, get (lv_matrix lv) y x = Some ch ∧ is_player_char ch.
Proof.
  intros (Hy & Hx & ch & Hch & Hp)%find_player_spec. exists ch. split; [|done].
  unfold get. rewrite decide_True by lia. by rewrite Z.sub_0_r in Hch.
Qed.

Lemma undo_after_add lv :
  lv_matrix (getLastMatrix (addToHistory lv (lv_matrix lv))) = lv_matrix lv
  ∧ ((length (lv_history lv) < 100)%nat →
     getLastMatrix (addToHistory lv (lv_matrix lv)) = lv).
Proof.
  unfold getLastMatrix, addToHistory. simpl. rewrite length_app. simpl.
  case_decide as Hlen.
  - destruct (lv_history lv) as [|m0 h]; simpl in *; [lia|].
    rewrite drop_0, last_snoc. simpl. split; [done|lia].
  - rewrite last_snoc. simpl. split; [done|]. intros _.
    rewrite removelast_last. by destruct lv.
Qed.

Lemma direction_delta_name mv :
  direction_delta (direction_name mv) = Some ((delta mv).2, (delta mv).1).
Proof. by destruct mv. Qed.

Lemma free_cases ch :
  bool_decide (ch = FLOOR) || bool_decide (ch = GOAL) = char_in ch [FLOOR; GOAL].
Proof.
  unfold char_in. repeat case_bool_decide; simpl; try done; set_solver.
Qed.

Lemma box_cases ch :
  bool_decide (ch = BOX) || bool_decide (ch = BOX_ON_GOAL) = char_in ch [BOX; BOX_ON_GOAL].
Proof.
  unfold char_in. repeat case_bool_decide; simpl; try done; set_solver.
Qed.

(** [movePlayer] without the subscripts: every cell it reads or writes is a
    cell of the grid. *)
Lemma movePlayer_unfold direction lv x y dx dy :
  getPlayerPosition lv = Some (x, y) →
  direction_delta direction = Some (dx, dy) →
  let m := lv_matrix lv in
  let lv1 := addToHistory lv m in
  let undone := Some (false, getLastMatrix lv1) in
  movePlayer direction lv
  = match get m (y + dy) (x + dx) with
    | None => undone
    | Some dest =>
        let leave := if bool_decide (cell_at m y x = PLAYER_ON_GOAL)
                     then GOAL else FLOOR in
        if char_in dest [FLOOR; GOAL] then
          Some (true,
                with_matrix lv1
                  (set_cell
                     (set_cell m (y + dy) (x + dx)
                        (if bool_decide (dest = GOAL) then PLAYER_ON_GOAL else PLAYER))
                     y x leave)
                  (lv_history lv1))
        else if char_in dest [BOX; BOX_ON_GOAL] then
          match get m (y + 2 * dy) (x + 2 * dx) with
          | None => undone
          | Some beyond =>
              if char_in beyond [FLOOR; GOAL] then
                Some (true,
                      with_matrix lv1
                        (set_cell
                           (set_cell
                              (set_cell m (y + 2 * dy) (x + 2 * dx)
                                 (if bool_decide (beyond = GOAL)
                                  then BOX_ON_GOAL else BOX))
                              (y + dy) (x + dx)
                              (if bool_decide (dest = BOX_ON_GOAL)
                               then PLAYER_ON_GOAL else PLAYER))
                           y x leave)
                        (lv_history lv1))
              else undone
          end
        else undone
    end.
Proof.
  intros Hpos Hdir. simpl. unfold movePlayer.
  assert (getPlayerPosition (addToHistory lv (lv_matrix lv)) = Some (x, y)) as -> by done.
  rewrite Hdir. simpl.
  destruct (getPlayerPosition_spec _ _ _ Hpos) as [chp [Hp Hpl]].
  pose proof (get_nonneg _ _ _ _ Hp) as [Hy Hx].
  rewrite !in_grid_guard_spec. simpl.
  destruct (get (lv_matrix lv) (y + dy) (x + dx)) as [dest|] eqn:Hdest; simpl.
  2: done.
  pose proof (get_nonneg _ _ _ _ Hdest) as [Hy1 Hx1].
  rewrite (py_get _ y x), (py_get _ (y + dy) (x + dx)) by done.
  rewrite Hp, Hdest. simpl.
  rewrite (cell_at_get _ _ _ _ Hp), free_cases, box_cases.
  assert (∀ m' : matrix, length <$> m' = length <$> lv_matrix lv →
            is_Some (get m' y x)) as Hkeep.
  { intros m' Hsh. apply get_is_Some.
    apply mk_is_Some, get_is_Some in Hp as (_ & _ & row & Hrow & Hlen).
    split_and!; [done..|].
    apply (f_equal (λ l, l !! Z.to_nat y)) in Hsh.
    rewrite !list_lookup_fmap, Hrow in Hsh.
    destruct (m' !! Z.to_nat y) as [row'|]; simplify_eq/=.
    exists row'. split; [done|]. lia. }
  destruct (char_in dest [FLOOR; GOAL]).
  { rewrite py_store2_spec by done. simpl.
    rewrite py_store2_spec by (apply Hkeep, set_cell_shape). done. }
  destruct (char_in dest [BOX; BOX_ON_GOAL]); [|done]. simpl.
  destruct (get (lv_matrix lv) (y + 2 * dy) (x + 2 * dx)) as [beyond|] eqn:Hbeyond; simpl.
  2: done.
  pose proof (get_nonneg _ _ _ _ Hbeyond) as [Hy2 Hx2].
  rewrite (py_get _ (y + 2 * dy) (x + 2 * dx)) by done.
  rewrite Hbeyond. simpl. rewrite free_cases.
  destruct (char_in beyond [FLOOR; GOAL]); [|done].
  rewrite py_store2_spec by done. simpl.
  assert (∀ m' : matrix, length <$> m' = length <$> lv_matrix lv →
            is_Some (get m' (y + dy) (x + dx))) as Hkeep1.
  { intros m' Hsh. apply get_is_Some.
    apply mk_is_Some, get_is_Some in Hdest as (_ & _ & row & Hrow & Hlen).
    split_and!; [done..|].
    apply (f_equal (λ l, l !! Z.to_nat (y + dy))) in Hsh.
    rewrite !list_lookup_fmap, Hrow in Hsh.
    destruct (m' !! Z.to_nat (y + dy)) as [row'|]; simplify_eq/=.
    exists row'. split; [done|]. lia. }
  rewrite py_store2_spec by (apply Hkeep1, set_cell_shape). simpl.
  rewrite py_store2_spec; [done|]. apply Hkeep. by rewrite !set_cell_shape.
Qed.

Lemma char_in_true ch l : ch ∈ l → char_in ch l = true.
Proof. intros. by apply bool_decide_eq_true_2. Qed.

Lemma char_in_false ch l : ch ∉ l → char_in ch l = false.
Proof. intros. by apply bool_decide_eq_false_2. Qed.

Lemma box_not_free ch : ch ∈ [BOX; BOX_ON_GOAL] → ch ∉ [FLOOR; GOAL].
Proof. intros Hb Hf. by apply free_not_box in Hf; apply Hf, box_char_in. Qed.

Lemma movePlayer_blocked lv mv x y :
  getPlayerPosition lv = Some (x, y) →
  move_blocked (lv_matrix lv) (y, x) mv →
  movePlayer (direction_name mv) lv
  = Some (false, getLastMatrix (addToHistory lv (lv_matrix lv))).
Proof.
  intros Hpos Hblk.
  rewrite (movePlayer_unfold _ _ _ _ _ _ Hpos (direction_delta_name mv)).
  unfold move_blocked, pstep in Hblk. simpl in Hblk.
  replace (y + (delta mv).1 + (delta mv).1) with (y + 2 * (delta mv).1) in Hblk by lia.
  replace (x + (delta mv).2 + (delta mv).2) with (x + 2 * (delta mv).2) in Hblk by lia.
  destruct (get (lv_matrix lv) (y + (delta mv).1) (x + (delta mv).2)) as [dest|]; [|done].
  simpl. destruct Hblk as [->|[Hbox Hbeyond]]; [done|].
  rewrite (char_in_false _ _ (box_not_free _ Hbox)), (char_in_true _ _ Hbox).
  destruct (get (lv_matrix lv) (y + 2 * (delta mv).1) (x + 2 * (delta mv).2))
    as [beyond|]; [|done].
  by rewrite (char_in_false _ _ Hbeyond).
Qed.

Lemma movePlayer_total direction lv : is_Some (movePlayer direction lv).
Proof.
  destruct (getPlayerPosition lv) as [[x y]|] eqn:Hpos.
  2: { unfold movePlayer.
       assert (getPlayerPosition (addToHistory lv (lv_matrix lv)) = None) as -> by done.
       done. }
  destruct (direction_delta direction) as [[dx dy]|] eqn:Hdir.
  2: { unfold movePlayer.
       assert (getPlayerPosition (addToHistory lv (lv_matrix lv)) = Some (x, y)) as ->
         by done.
       by rewrite Hdir. }
  rewrite (movePlayer_unfold _ _ _ _ _ _ Hpos Hdir). simpl.
  repeat case_match; done.
Qed.

Lemma cell_at_outside m r c : get m r c = None → cell_at m r c = "000"%char.
Proof. unfold cell_at. by intros ->. Qed.

Lemma solver_move_blocked m p bp mv :
  move_blocked m p mv → solver_move m p bp mv = None.
Proof.
  unfold move_blocked, solver_move, pstep. destruct (delta mv) as [dr dc]. simpl.
  destruct (in_bounds _ _ (p.1 + dr) (p.2 + dc)); simpl; [|done].
  destruct (get m (p.1 + dr) (p.2 + dc)) as [dest|] eqn:Hdest.
  2: { by rewrite (cell_at_outside _ _ _ Hdest). }
  rewrite (cell_at_get _ _ _ _ Hdest). intros [->|[Hbox Hbeyond]]; [done|].
  rewrite (char_in_false _ _ (box_not_free _ Hbox)), (char_in_true _ _ Hbox).
  destruct (in_bounds _ _ (p.1 + dr + dr) (p.2 + dc + dc)); simpl; [|done].
  destruct (get m (p.1 + dr + dr) (p.2 + dc + dc)) as [beyond|] eqn:Hb.
  - rewrite (cell_at_get _ _ _ _ Hb).
    by rewrite (char_in_false _ _ Hbeyond).
  - by rewrite (cell_at_outside _ _ _ Hb).
Qed.

Lemma solver_guard_in_grid m r c :
  rectangular m → in_bounds (n_rows m) (n_cols m) r c → is_Some (get m r c).
Proof.
  intros Hrect [[Hr0 Hr] [Hc0 Hc]]%bool_decide_unpack. apply get_is_Some.
  split_and!; [done..|]. unfold n_rows in Hr.
  destruct (lookup_lt_is_Some_2 m (Z.to_nat r)) as [row Hrow]; [lia|].
  exists row. split; [done|]. rewrite (Hrect row); [done|].
  by eapply list_elem_of_lookup_2.
Qed.

(** C6. Rejected moves change nothing, and no subscript is out of range.
    For the interactive [movePlayer]: a move into a wall, out of the grid, or
    into a box that cannot advance returns [False] and leaves the grid as it
    was (and the whole level, while the undo history has room); and
    [movePlayer] never raises [IndexError], whatever the level and the
    direction.  For the solver's transition: the same moves produce no
    successor, and on a rectangular grid every position that passes the
    solver's bounds test is a cell of the grid. *)
Theorem move_rejection :
  (∀ lv mv x y,
     getPlayerPosition lv = Some (x, y) →
     move_blocked (lv_matrix lv) (y, x) mv →
     ∃ lv', movePlayer (direction_name mv) lv = Some (false, lv')
            ∧ lv_matrix lv' = lv_matrix lv
            ∧ ((length (lv_history lv) < 100)%nat → lv' = lv))
  ∧ (∀ lv direction, is_Some (movePlayer direction lv))
  ∧ (∀ m p bp mv, move_blocked m p mv → solver_move m p bp mv = None)
  ∧ (∀ m r c, rectangular m → in_bounds (n_rows m) (n_cols m) r c →
              is_Some (get m r c)).
Proof.
  split_and!.
  - intros lv mv x y Hpos Hblk. eexists.
    split; [by apply (movePlayer_blocked _ _ x y)|]. apply undo_after_add.
  - intros. apply movePlayer_total.
  - apply solver_move_blocked.
  - apply solver_guard_in_grid.
Qed.

Lemma move_rejection_witness :
  movePlayer "U" level_0 = Some (false, level_0)
  ∧ solver_move fallback_0 (1, 1) [(2, 2)] L = None.
Proof.
  destruct move_rejection as (Hmove & _ & Hsolver & _). split.
  - destruct (Hmove level_0 U 1 1) as (lv' & Heq & _ & Hsame);
      [reflexivity|by left|].
    change (direction_name U) with "U"%string in Heq.
    rewrite Heq, Hsame; [done|simpl; lia].
  - apply Hsolver. by left.
Defined.

(** ** Level generation *)

(** ** Generated levels are solvable *)



Lemma always_True {A} (g : Gen A) : always (λ _, True) g.
Proof. done. Qed.


Lemma found_solvable level :
  found (solve_sokoban_bfs level DEFAULT_MAX_ITERATIONS) → solvable level.
Proof.
  unfold solvable.
  destruct (solve_sokoban_bfs level DEFAULT_MAX_ITERATIONS) as [path|] eqn:Hs; [|done].
  intros _. exists path. split; [done|]. by eapply solve_sound.
Qed.


Lemma fallback_entry_solvable idx :
  found (solve_sokoban_bfs
           (default (emergency_level, emergency_solution)
                    (FALLBACK_LEVELS !! Z.to_nat idx)).1
           DEFAULT_MAX_ITERATIONS) →
  solvable (default (emergency_level, emergency_solution)
                    (FALLBACK_LEVELS !! Z.to_nat idx)).1.
Proof. apply found_solvable. Qed.




(** The move list stored with a level is another matter: the list stored
    with the second bank entry replays without a rejected move and leaves a
    box off its goal. *)
Lemma stored_solution_unsolved :
  is_solved <$> replay fallback_1 fallback_solution_1 = Some false.
Proof. reflexivity. Qed.

(** ** The solver and the classifier on Python's object store *)

(** ** The store: rules *)

Lemma run_ret_spec {A} (a : A) h (Q : A → store → Prop) :
  Q a h → run_spec (mret a) h Q.
Proof. done. Qed.

Lemma run_bind_spec {A B} (g : Run A) (f : A → Run B) h (Q : B → store → Prop) :
  run_spec g h (λ a h1, run_spec (f a) h1 Q) → run_spec (g ≫= f) h Q.
Proof. unfold run_spec, mbind, run_bind. by destruct (g h). Qed.

Lemma run_spec_mono {A} (g : Run A) h (Q Q' : A → store → Prop) :
  run_spec g h Q → (∀ a h', Q a h' → Q' a h') → run_spec g h Q'.
Proof. unfold run_spec. auto. Qed.

Lemma alloc_rows_spec m h :
  alloc_rows m h = (seq (length h) (length m), h ++ (Row <$> m)).
Proof.
  revert h. induction m as [|row m IH]; intros h; simpl.
  - by rewrite app_nil_r.
  - unfold mbind, run_bind, alloc. simpl. rewrite IH. simpl.
    rewrite length_app. simpl. rewrite <-app_assoc. simpl.
    by replace (length h + 1)%nat with (S (length h)) by lia.
Qed.

Lemma deref_rows (h : store) (rows : list nat) (m : matrix) :
  Forall2 (λ l row, h !! l = Some (Row row)) rows m → row_at h <$> rows = m.
Proof.
  induction 1 as [|l row rows m Hl _ IH]; simpl; [done|].
  f_equal; [|done]. unfold row_at. by rewrite Hl.
Qed.

Lemma fresh_grid_deref h0 h mref m : fresh_grid h0 h mref m → deref h mref = m.
Proof.
  intros (_ & rows & Hm & _ & _ & Hrows). unfold deref. rewrite Hm.
  by apply deref_rows.
Qed.

Lemma new_matrix_spec m h :
  run_spec (new_matrix m) h (λ mref h', fresh_grid h h' mref m).
Proof.
  unfold run_spec, new_matrix, mbind, run_bind. rewrite alloc_rows_spec.
  unfold alloc. simpl. split; [by eexists; rewrite <-app_assoc|].
  exists (seq (length h) (length m)). split_and!.
  - rewrite lookup_app_r by done. by rewrite Nat.sub_diag.
  - apply NoDup_seq.
  - apply Forall_forall. intros l Hl%elem_of_seq. lia.
  - apply Forall2_same_length_lookup. split; [by rewrite length_seq|].
    intros i l row Hl Hrow. apply lookup_seq in Hl as [-> Hi].
    rewrite lookup_app_l by (rewrite length_app, length_fmap; lia).
    rewrite lookup_app_r by lia.
    replace (length h + i - length h)%nat with i by lia.
    by rewrite list_lookup_fmap, Hrow.
Qed.

Lemma prefix_insert_after (h0 h : store) l o :
  h0 `prefix_of` h → (length h0 ≤ l)%nat → h0 `prefix_of` <[l := o]> h.
Proof.
  intros [k ->] Hl. exists (<[(l - length h0)%nat := o]> k).
  by rewrite insert_app_r_alt.
Qed.

Lemma alter_out_of_range {A} (f : A → A) (l : list A) i :
  (length l ≤ i)%nat → alter f i l = l.
Proof.
  intros Hi. apply list_eq. intros j. destruct (decide (j = i)) as [->|Hne].
  - rewrite list_lookup_alter_eq. by rewrite (lookup_ge_None_2 l i).
  - by rewrite list_lookup_alter_ne.
Qed.

Lemma store_cell_spec h0 h mref m r c v :
  fresh_grid h0 h mref m →
  run_spec (store_cell mref r c v) h
           (λ _ h', fresh_grid h0 h' mref (set_cell m r c v)).
Proof.
  intros (Hpre & rows & Hm & Hnd & Hnew & Hrows).
  unfold run_spec, store_cell, set_cell. rewrite Hm.
  destruct (rows !! Z.to_nat r) as [l|] eqn:Hl; simpl.
  2: { rewrite alter_out_of_range.
       - split; [done|]. by exists rows.
       - apply lookup_ge_None in Hl. by rewrite <-(Forall2_length _ _ _ Hrows). }
  destruct (Forall2_lookup_l _ _ _ _ _ Hrows Hl) as (row & Hrow & Hcells).
  rewrite Hcells. simpl.
  assert ((length h0 ≤ l)%nat) as Hfresh.
  { eapply Forall_lookup_1 in Hnew; done. }
  split; [by apply prefix_insert_after|].
  exists rows. split_and!; [|done|done|].
  - rewrite list_lookup_insert_ne; [done|]. intros <-. congruence.
  - apply Forall2_same_length_lookup. split.
    + rewrite length_alter. by eapply Forall2_length.
    + intros i l' row' Hl' Hrow'.
      destruct (decide (i = Z.to_nat r)) as [->|Hne].
      * rewrite list_lookup_alter_eq, Hrow in Hrow'. simplify_eq/=.
        apply list_lookup_insert_eq. by eapply lookup_lt_Some.
      * rewrite list_lookup_alter_ne in Hrow' by done.
        rewrite list_lookup_insert_ne.
        -- exact (Forall2_lookup_lr _ _ _ _ _ _ Hrows Hl' Hrow').
        -- intros <-. apply Hne. by eapply NoDup_lookup.
Qed.

Lemma load_cell_spec h0 h mref m r c :
  fresh_grid h0 h mref m → load_cell mref r c h = (cell_at m r c, h).
Proof. intros Hg. unfold load_cell. by rewrite (fresh_grid_deref _ _ _ _ Hg). Qed.

Lemma grid_ref_lt h mref :
  grid_ref h mref → (mref < length h)%nat.
Proof. intros (rows & Hm%lookup_lt_Some & _). done. Qed.

Lemma grid_ref_extend h h' mref :
  grid_ref h mref → h `prefix_of` h' → grid_ref h' mref ∧ deref h' mref = deref h mref.
Proof.
  intros (rows & Hm & Hrows) [k ->].
  assert (∀ l, l ∈ rows → (h ++ k) !! l = h !! l) as Hsame.
  { intros l [cells Hl]%Hrows. rewrite lookup_app_l; [done|]. by eapply lookup_lt_Some. }
  split.
  - exists rows. split.
    + rewrite lookup_app_l; [done|]. by eapply lookup_lt_Some.
    + intros l Hl. rewrite (Hsame _ Hl). by apply Hrows.
  - unfold deref. rewrite lookup_app_l, Hm by (by eapply lookup_lt_Some).
    apply Forall_fmap_ext, Forall_forall. intros l Hl. unfold row_at.
    by rewrite (Hsame _ Hl).
Qed.

Lemma fresh_grid_ref h0 h mref m : fresh_grid h0 h mref m → grid_ref h mref.
Proof.
  intros (_ & rows & Hm & _ & _ & Hrows). exists rows. split; [done|].
  intros l [i Hl]%list_elem_of_lookup.
  destruct (Forall2_lookup_l _ _ _ _ _ Hrows Hl) as (row & _ & Hcells). eauto.
Qed.

Lemma copy_matrix_spec h mref :
  run_spec (copy_matrix mref) h (λ next h', fresh_grid h h' next (deref h mref)).
Proof.
  unfold copy_matrix. apply run_bind_spec. unfold snapshot at 1, run_spec at 1. simpl.
  apply new_matrix_spec.
Qed.

(** Leaving the player's old cell, on a grid of the running call. *)
Lemma leave_spec h0 h next m r c :
  fresh_grid h0 h next m →
  run_spec (here ← load_cell next r c;
            store_cell next r c
              (if bool_decide (here = PLAYER_ON_GOAL) then GOAL else FLOOR))
           h
           (λ _ h', fresh_grid h0 h' next
                      (set_cell m r c
                         (if bool_decide (cell_at m r c = PLAYER_ON_GOAL)
                          then GOAL else FLOOR))).
Proof.
  intros Hg. apply run_bind_spec. unfold run_spec at 1.
  rewrite (load_cell_spec _ _ _ _ _ _ Hg). simpl. by apply store_cell_spec.
Qed.

Lemma run_solver_move_spec h cur p bp mv :
  run_spec (run_solver_move cur p bp mv) h
    (λ res h',
       h `prefix_of` h'
       ∧ match res with
         | None => solver_move (deref h cur) p bp mv = None
         | Some (next, p', bp') =>
             solver_move (deref h cur) p bp mv = Some (deref h' next, p', bp')
             ∧ grid_ref h' next
         end).
Proof.
  unfold run_solver_move, solver_move, rejected. destruct (delta mv) as [dr dc].
  apply run_bind_spec. eapply run_spec_mono; [apply copy_matrix_spec|].
  intros next h1 Hg. simpl in Hg.
  apply run_bind_spec. unfold snapshot at 1, run_spec at 1. simpl.
  rewrite (fresh_grid_deref _ _ _ _ Hg).
  set (m := deref h cur) in *.
  assert (h `prefix_of` h1) as Hpre by apply Hg.
  destruct (in_bounds _ _ (p.1 + dr) (p.2 + dc)); simpl; [|by apply run_ret_spec].
  apply run_bind_spec. unfold run_spec at 1.
  rewrite (load_cell_spec _ _ _ _ _ _ Hg). simpl.
  destruct (char_in (cell_at m (p.1 + dr) (p.2 + dc)) [FLOOR; GOAL]).
  { apply run_bind_spec.
    eapply run_spec_mono; [by apply store_cell_spec|]. intros [] h2 Hg2. simpl in Hg2.
    apply run_bind_spec.
    eapply run_spec_mono; [by apply leave_spec|]. intros [] h3 Hg3. simpl in Hg3.
    apply run_ret_spec. split; [apply Hg3|].
    rewrite (fresh_grid_deref _ _ _ _ Hg3). split; [done|by eapply fresh_grid_ref]. }
  destruct (char_in (cell_at m (p.1 + dr) (p.2 + dc)) [BOX; BOX_ON_GOAL]);
    [|by apply run_ret_spec].
  destruct (in_bounds _ _ (p.1 + dr + dr) (p.2 + dc + dc)); simpl;
    [|by apply run_ret_spec].
  apply run_bind_spec. unfold run_spec at 1.
  rewrite (load_cell_spec _ _ _ _ _ _ Hg). simpl.
  destruct (char_in (cell_at m (p.1 + dr + dr) (p.2 + dc + dc)) [FLOOR; GOAL]);
    [|by apply run_ret_spec].
  apply run_bind_spec.
  eapply run_spec_mono; [by apply store_cell_spec|]. intros [] h2 Hg2. simpl in Hg2.
  apply run_bind_spec.
  eapply run_spec_mono; [by apply store_cell_spec|]. intros [] h3 Hg3. simpl in Hg3.
  apply run_bind_spec.
  eapply run_spec_mono; [by apply leave_spec|]. intros [] h4 Hg4. simpl in Hg4.
  apply run_ret_spec. split; [apply Hg4|].
  rewrite (fresh_grid_deref _ _ _ _ Hg4). split; [done|by eapply fresh_grid_ref].
Qed.

Lemma snapshot_spec mref h (Q : matrix → store → Prop) :
  Q (deref h mref) h → run_spec (snapshot mref) h Q.
Proof. done. Qed.

Lemma run_detect_simple_deadlocks_spec h mref :
  run_spec (run_detect_simple_deadlocks mref) h
    (λ squares h', squares = detect_simple_deadlocks (deref h mref)
                   ∧ h `prefix_of` h').
Proof.
  unfold run_detect_simple_deadlocks, detect_simple_deadlocks.
  apply run_bind_spec. apply snapshot_spec.
  apply run_bind_spec. eapply run_spec_mono; [apply new_matrix_spec|].
  intros clean_ref h1 Hg. cbn beta in Hg.
  apply run_bind_spec. apply snapshot_spec.
  apply run_ret_spec. rewrite (fresh_grid_deref _ _ _ _ Hg). split; [done|apply Hg].
Qed.

Lemma run_has_deadlock_spec h mref :
  grid_ref h mref →
  run_spec (run_has_deadlock mref) h
    (λ b h', b = has_deadlock (deref h mref) ∧ h `prefix_of` h').
Proof.
  intros Href. unfold run_has_deadlock, has_deadlock.
  apply run_bind_spec. apply snapshot_spec.
  destruct (get_player_and_boxes_positions (deref h mref)) as [[pp|] bp];
    [|by apply run_ret_spec].
  case_match; [by apply run_ret_spec|].
  apply run_bind_spec.
  eapply run_spec_mono; [apply run_detect_simple_deadlocks_spec|].
  intros squares h1 [-> Hpre]. cbn beta.
  case_match; [by apply run_ret_spec|].
  apply run_bind_spec. apply snapshot_spec.
  destruct (grid_ref_extend _ _ _ Href Hpre) as [_ ->].
  repeat case_match; by apply run_ret_spec.
Qed.

Lemma run_try_move_spec h goal_positions cur pp bp path acc mv :
  grid_ref h cur →
  run_spec (run_try_move goal_positions cur pp bp path acc mv) h
    (λ res h', res = try_move goal_positions (deref h cur) pp bp path acc mv
               ∧ h `prefix_of` h').
Proof.
  intros Href. unfold run_try_move, try_move.
  destruct acc as [found|queue visited]; [by apply run_ret_spec|].
  apply run_bind_spec.
  eapply run_spec_mono; [apply run_solver_move_spec|].
  intros [[[next p'] bp']|] h1 [Hpre Hres]; cbn beta iota in *.
  2: { rewrite Hres. by apply run_ret_spec. }
  destruct Hres as [-> Hnext].
  apply run_bind_spec. apply snapshot_spec.
  case_bool_decide; [by apply run_ret_spec|].
  case_match; [by apply run_ret_spec|].
  apply run_bind_spec.
  eapply run_spec_mono; [by apply run_has_deadlock_spec|].
  intros b h2 [-> Hpre2]. cbn beta.
  destruct (has_deadlock (deref h1 next)); apply run_ret_spec;
    (split; [done|by etrans]).
Qed.

Lemma run_try_moves_spec h goal_positions cur pp bp path acc mvs :
  grid_ref h cur →
  run_spec (run_try_moves goal_positions cur pp bp path acc mvs) h
    (λ res h', res = foldl (try_move goal_positions (deref h cur) pp bp path) acc mvs
               ∧ h `prefix_of` h').
Proof.
  revert h acc. induction mvs as [|mv mvs IH]; intros h acc Href; cbn [run_try_moves foldl].
  { by apply run_ret_spec. }
  apply run_bind_spec.
  eapply run_spec_mono; [by apply run_try_move_spec|].
  intros acc' h1 [-> Hpre]. cbn beta.
  destruct (grid_ref_extend _ _ _ Href Hpre) as [Href1 Hsame].
  eapply run_spec_mono; [by apply IH|].
  intros res h2 [-> Hpre2]. cbn beta. rewrite Hsame. split; [done|by etrans].
Qed.

Lemma run_bfs_loop_spec fuel goal_positions queue visited h :
  run_spec (run_bfs_loop fuel goal_positions queue visited) h
    (λ res h', res = bfs_loop fuel goal_positions queue visited ∧ h `prefix_of` h').
Proof.
  revert queue visited h.
  induction fuel as [|fuel IH]; intros queue visited h; [by apply run_ret_spec|].
  rewrite bfs_loop_S. cbn [run_bfs_loop].
  destruct queue as [|[tuple path] queue]; [by apply run_ret_spec|].
  apply run_bind_spec. eapply run_spec_mono; [apply new_matrix_spec|].
  intros cur h1 Hg. cbn beta in Hg.
  apply run_bind_spec. apply snapshot_spec.
  rewrite (fresh_grid_deref _ _ _ _ Hg).
  assert (h `prefix_of` h1) as Hpre by apply Hg.
  destruct (get_player_and_boxes_positions tuple) as [[pp|] bp];
    [|by apply run_ret_spec].
  apply run_bind_spec.
  eapply run_spec_mono;
    [apply run_try_moves_spec; by eapply fresh_grid_ref|].
  intros res h2 [-> Hpre2]. cbn beta. rewrite (fresh_grid_deref _ _ _ _ Hg).
  destruct (foldl _ _ MOVES) as [found|queue' visited'].
  - apply run_ret_spec. split; [done|by etrans].
  - eapply run_spec_mono; [apply IH|]. intros res h3 [-> Hpre3]. cbn beta.
    split; [done|]. etrans; [done|]. by etrans.
Qed.

Lemma run_solve_sokoban_bfs_spec h mref max_iterations :
  run_spec (run_solve_sokoban_bfs mref max_iterations) h
    (λ res h', res = solve_sokoban_bfs (deref h mref) max_iterations
               ∧ h `prefix_of` h').
Proof.
  unfold run_solve_sokoban_bfs, solve_sokoban_bfs.
  apply run_bind_spec. apply snapshot_spec.
  destruct (get_player_and_boxes_positions (deref h mref)) as [[pp|] bp];
    [|by apply run_ret_spec].
  case_match; [by apply run_ret_spec|].
  case_match; [by apply run_ret_spec|].
  apply run_bfs_loop_spec.
Qed.

(** C9. The solver and the deadlock classifier leave the caller's grid as
    it was: run on a reference to a grid in any object store, each returns
    with every object of that store unchanged (the store has only grown),
    so the grid behind the reference is, cell for cell, what it was.  Their
    results are those of the functions on grids. *)
Theorem solver_and_classifier_read_only h mref max_iterations :
  grid_ref h mref →
  (let '(res, h') := run_solve_sokoban_bfs mref max_iterations h in
   h `prefix_of` h' ∧ deref h' mref = deref h mref
   ∧ res = solve_sokoban_bfs (deref h mref) max_iterations)
  ∧ (let '(b, h') := run_has_deadlock mref h in
     h `prefix_of` h' ∧ deref h' mref = deref h mref
     ∧ b = has_deadlock (deref h mref)).
Proof.
  intros Href. split.
  - pose proof (run_solve_sokoban_bfs_spec h mref max_iterations) as H.
    unfold run_spec in H. destruct (run_solve_sokoban_bfs _ _ _) as [res h'].
    cbn [fst snd] in H. destruct H as [-> Hpre]. split_and!; [done| |done].
    by apply grid_ref_extend.
  - pose proof (run_has_deadlock_spec h mref Href) as H.
    unfold run_spec in H. destruct (run_has_deadlock _ _) as [b h'].
    cbn [fst snd] in H. destruct H as [-> Hpre]. split_and!; [done| |done].
    by apply grid_ref_extend.
Qed.

Lemma solver_and_classifier_read_only_witness :
  let h := store_of emergency_level in
  let mref := ref_of emergency_level in
  grid_ref h mref
  ∧ (let '(res, h') := run_solve_sokoban_bfs mref DEFAULT_MAX_ITERATIONS h in
     h `prefix_of` h' ∧ deref h' mref = deref h mref
     ∧ res = solve_sokoban_bfs (deref h mref) DEFAULT_MAX_ITERATIONS)
  ∧ (let '(b, h') := run_has_deadlock mref h in
     h `prefix_of` h' ∧ deref h' mref = deref h mref
     ∧ b = has_deadlock (deref h mref)).
Proof.
  assert (grid_ref (store_of emergency_level) (ref_of emergency_level)) as Href.
  { eexists. split; [vm_compute; reflexivity|]. intros l Hl.
    repeat (apply elem_of_cons in Hl as [->|Hl];
            [eexists; reflexivity|]).
    by inversion Hl. }
  split; [exact Href|].
  exact (solver_and_classifier_read_only _ _ DEFAULT_MAX_ITERATIONS Href).
Defined.

(** C4. The solver is deterministic.  Two calls on the same grid object,
    the second in the store the first one left, return the same result; and
    so does a call on any other object, in any store, that holds the same
    cells. *)
Theorem solve_deterministic h mref max_iterations :
  grid_ref h mref →
  let '(first, h1) := run_solve_sokoban_bfs mref max_iterations h in
  (run_solve_sokoban_bfs mref max_iterations h1).1 = first
  ∧ ∀ h2 mref2, deref h2 mref2 = deref h mref →
                (run_solve_sokoban_bfs mref2 max_iterations h2).1 = first.
Proof.
  intros Href.
  pose proof (run_solve_sokoban_bfs_spec h mref max_iterations) as H.
  unfold run_spec in H. destruct (run_solve_sokoban_bfs _ _ h) as [first h1].
  cbn [fst snd] in H. destruct H as [-> Hpre].
  destruct (grid_ref_extend _ _ _ Href Hpre) as [_ Hsame]. split.
  - rewrite <- Hsame. apply (run_solve_sokoban_bfs_spec h1 mref max_iterations).
  - intros h2 mref2 <-. apply (run_solve_sokoban_bfs_spec h2 mref2 max_iterations).
Qed.

Lemma solve_deterministic_witness :
  let h := store_of emergency_level in
  let mref := ref_of emergency_level in
  grid_ref h mref
  ∧ let '(first, h1) := run_solve_sokoban_bfs mref DEFAULT_MAX_ITERATIONS h in
    (run_solve_sokoban_bfs mref DEFAULT_MAX_ITERATIONS h1).1 = first
    ∧ ∀ h2 mref2, deref h2 mref2 = deref h mref →
                  (run_solve_sokoban_bfs mref2 DEFAULT_MAX_ITERATIONS h2).1 = first.
Proof.
  assert (grid_ref (store_of emergency_level) (ref_of emergency_level)) as Href.
  { eexists. split; [vm_compute; reflexivity|]. intros l Hl.
    repeat (apply elem_of_cons in Hl as [->|Hl];
            [eexists; reflexivity|]).
    by inversion Hl. }
  split; [exact Href|].
  exact (solve_deterministic _ _ DEFAULT_MAX_ITERATIONS Href).
Defined.

(** ** Order of the search *)

(** ** Order of the search: lemmas *)

Lemma sorted_perm l1 l2 : l1 ≡ₚ l2 → sorted l1 = sorted l2.
Proof.
  intros Hp. apply (StronglySorted_unique pos_le);
    [apply StronglySorted_merge_sort; apply _..|].
  unfold sorted. by rewrite !merge_sort_Permutation.
Qed.

Lemma sorted_elem l x : x ∈ sorted l ↔ x ∈ l.
Proof. unfold sorted. by rewrite merge_sort_Permutation. Qed.

Lemma movable_cases ch :
  movable ch = true → ch ∈ [PLAYER; PLAYER_ON_GOAL; BOX; BOX_ON_GOAL; FLOOR; GOAL].
Proof.
  unfold movable, is_player_char, is_box_char, is_free_char, char_in.
  rewrite !orb_true_iff, !bool_decide_eq_true. set_solver.
Qed.

Lemma movable_char_eq ch1 ch2 :
  movable ch1 = true → movable ch2 = true →
  is_player_char ch1 = is_player_char ch2 →
  is_box_char ch1 = is_box_char ch2 →
  is_goal_char ch1 = is_goal_char ch2 →
  ch1 = ch2.
Proof.
  intros H1%movable_cases H2%movable_cases.
  repeat (apply elem_of_cons in H1 as [->|H1]);
    repeat (apply elem_of_cons in H2 as [->|H2]);
    try (by inversion H1); try (by inversion H2);
    vm_compute; congruence.
Qed.

Lemma get_ext m1 m2 :
  length <$> m1 = length <$> m2 →
  (∀ r c, get m1 r c = get m2 r c) → m1 = m2.
Proof.
  intros Hshape Hget. apply list_eq. intros i.
  assert (length <$> (m1 !! i) = length <$> (m2 !! i)) as Hi.
  { by rewrite <-!list_lookup_fmap, Hshape. }
  destruct (m1 !! i) as [row1|] eqn:H1, (m2 !! i) as [row2|] eqn:H2;
    try done.
  f_equal. apply list_eq. intros j.
  specialize (Hget (Z.of_nat i) (Z.of_nat j)). unfold get in Hget.
  destruct (decide _) as [_|]; [|lia].
  by rewrite !Nat2Z.id, H1, H2 in Hget.
Qed.

Lemma NoDup_only {A} (l : list A) x :
  NoDup l → x ∈ l → (∀ y, y ∈ l → y = x) → l = [x].
Proof.
  intros Hnd Hx Hall. destruct l as [|a l]; [by inversion Hx|].
  assert (a = x) as -> by (apply Hall; left).
  f_equal. destruct l as [|b l]; [done|].
  assert (b = x) as -> by (apply Hall; right; left).
  apply NoDup_cons in Hnd as [Hnd _]. exfalso. apply Hnd. left.
Qed.

Lemma player_at_intro m p :
  (∀ r c, (∃ ch, get m r c = Some ch ∧ is_player_char ch) ↔ (r, c) = p) →
  player_at m p.
Proof.
  intros Hp.
  assert (positions_where is_player_char m = [p]) as Hl.
  { apply NoDup_only; [apply NoDup_positions_where|..].
    - destruct p as [r c]. apply elem_of_positions_where. by apply Hp.
    - intros [r c] Hy. apply elem_of_positions_where in Hy. by apply Hp. }
  split.
  - by rewrite scan_spec, Hl.
  - intros r c ch Hg Hc. apply Hp. eauto.
Qed.

Lemma player_at_cell m p :
  player_at m p → ∃ ch, get m p.1 p.2 = Some ch ∧ is_player_char ch.
Proof.
  intros [Hs _]. destruct (get_player_and_boxes_positions m) as [pp bp] eqn:Hscan.
  simpl in Hs. subst pp. by eapply scan_player_cell.
Qed.

Lemma one_player_at m :
  count_cells is_player_char m = 1%nat → ∃ p, player_at m p.
Proof.
  rewrite <-length_positions_where. intros Hlen.
  destruct (positions_where is_player_char m) as [|p [|]] eqn:Hl; simplify_eq/=.
  exists p. apply player_at_intro. intros r c.
  rewrite <-elem_of_positions_where, Hl. set_solver.
Qed.

Lemma same_layout_refl m : same_layout m m.
Proof. split; [done|]. intros r c. by split_and!. Qed.

Lemma state_of_init m :
  count_cells is_player_char m = 1%nat → state_of m m.
Proof. intros. split; [apply same_layout_refl|by apply one_player_at]. Qed.

Lemma cell_layout_update o0 ch ch' :
  cell_layout o0 (Some ch) →
  movable ch = true → movable ch' = true →
  is_goal_char ch' = is_goal_char ch →
  cell_layout o0 (Some ch').
Proof.
  intros (Hg & Hm & _) Hmov Hmov' Hgoal. split_and!; simpl in *.
  - by rewrite Hgoal.
  - by rewrite Hmov', <-Hm, Hmov.
  - intros ? [= <-]. congruence.
Qed.

Lemma on_goal_goal ch yes no :
  is_goal_char yes = true → is_goal_char no = false →
  is_goal_char (on_goal ch yes no) = is_goal_char ch.
Proof. unfold on_goal. by destruct (is_goal_char ch). Qed.

Lemma on_goal_movable ch yes no :
  movable yes = true → movable no = true → movable (on_goal ch yes no) = true.
Proof. unfold on_goal. by destruct (is_goal_char ch). Qed.

Lemma player_movable ch : is_player_char ch → movable ch = true.
Proof. unfold movable. by destruct (is_player_char ch). Qed.

Lemma box_movable ch : ch ∈ [BOX; BOX_ON_GOAL] → movable ch = true.
Proof. rewrite !elem_of_cons, elem_of_nil. intros [->|[->|[]]]; by compute. Qed.

Lemma free_movable ch : ch ∈ [FLOOR; GOAL] → movable ch = true.
Proof. rewrite !elem_of_cons, elem_of_nil. intros [->|[->|[]]]; by compute. Qed.

Lemma on_goal_player ch : is_player_char (on_goal ch PLAYER_ON_GOAL PLAYER).
Proof. unfold on_goal. by destruct (is_goal_char ch). Qed.

Lemma leave_not_player ch : ¬ is_player_char (on_goal ch GOAL FLOOR).
Proof. unfold on_goal. destruct (is_goal_char ch); by compute. Qed.

Lemma pushed_not_player ch : ¬ is_player_char (on_goal ch BOX_ON_GOAL BOX).
Proof. unfold on_goal. destruct (is_goal_char ch); by compute. Qed.

Lemma move_effect_layout m0 m p bp mv m' bp' :
  length <$> m' = length <$> m →
  move_effect m p bp mv m' bp' → same_layout m0 m → same_layout m0 m'.
Proof.
  intros Hshape Heff [Hsh Hcells]. split; [congruence|]. intros r c.
  specialize (Hcells r c).
  destruct Heff as [chp chq Hp Hpc Hq Hqc _ Hget|chp chq ch2 Hp Hpc Hq Hqc _ H2 H2c _ Hget];
    rewrite Hget; repeat case_decide; try at_cell; try done.
  - rewrite Hp in Hcells. eapply cell_layout_update; [done|..];
      auto using player_movable, on_goal_movable, on_goal_goal.
  - rewrite Hq in Hcells. eapply cell_layout_update; [done|..];
      auto using free_movable, on_goal_movable, on_goal_goal.
  - rewrite Hp in Hcells. eapply cell_layout_update; [done|..];
      auto using player_movable, on_goal_movable, on_goal_goal.
  - rewrite Hq in Hcells. eapply cell_layout_update; [done|..];
      auto using box_movable, on_goal_movable, on_goal_goal.
  - rewrite H2 in Hcells. eapply cell_layout_update; [done|..];
      auto using free_movable, on_goal_movable, on_goal_goal.
Qed.

Lemma move_effect_player m p bp mv m' bp' :
  move_effect m p bp mv m' bp' → player_at m p → player_at m' (pstep p mv).
Proof.
  intros Heff [_ Honly]. apply player_at_intro. intros r c.
  pose proof (pstep_ne p mv). pose proof (pstep2_ne p mv).
  assert (pstep (pstep p mv) mv ≠ pstep p mv) by apply pstep_ne.
  destruct Heff as [chp chq Hp Hpc Hq Hqc _ Hget|chp chq ch2 Hp Hpc Hq Hqc _ H2 H2c _ Hget];
    rewrite Hget; repeat case_decide.
  - split; [|intros ?; congruence]. intros (ch & [= <-] & Hc). by apply leave_not_player in Hc.
  - split; [done|]. intros _. eexists. split; [done|]. apply on_goal_player.
  - split; [|intros ?; congruence]. intros (ch & Hg & Hc). by destruct (Honly _ _ _ Hg Hc).
  - split; [|intros ?; congruence]. intros (ch & [= <-] & Hc). by apply leave_not_player in Hc.
  - split; [done|]. intros _. eexists. split; [done|]. apply on_goal_player.
  - split; [|intros ?; congruence]. intros (ch & [= <-] & Hc). by apply pushed_not_player in Hc.
  - split; [|intros ?; congruence]. intros (ch & Hg & Hc). by destruct (Honly _ _ _ Hg Hc).
Qed.

Lemma player_at_scan m p q bp :
  player_at m p → get_player_and_boxes_positions m = (Some q, bp) → q = p.
Proof. intros [Hs _] Hscan. rewrite Hscan in Hs. by simplify_eq/=. Qed.

Lemma apply_move_player m p mv m' :
  player_at m p → apply_move m mv = Some m' → player_at m' (pstep p mv).
Proof.
  intros Hp (q & bp & bp' & chp & Hscan & _ & _ & _ & _ & _ & Heff)%apply_move_inv.
  rewrite (player_at_scan _ _ _ _ Hp Hscan) in Heff. by eapply move_effect_player.
Qed.

Lemma state_of_step m0 m mv m' :
  state_of m0 m → apply_move m mv = Some m' → state_of m0 m'.
Proof.
  intros [Hlay [p Hp]] Hmove. split.
  - apply apply_move_inv in Hmove
      as (q & bp & bp' & chp & _ & _ & _ & _ & _ & Hshape & Heff).
    by eapply move_effect_layout.
  - eexists. by eapply apply_move_player.
Qed.

Lemma state_of_replay m0 path m :
  count_cells is_player_char m0 = 1%nat →
  replay m0 path = Some m → state_of m0 m.
Proof.
  intros Hone. revert m. induction path as [|mv path IH] using rev_ind; intros m.
  - intros [= <-]. by apply state_of_init.
  - rewrite replay_app. destruct (replay m0 path) as [m1|]; [|done]. simpl.
    destruct (apply_move m1 mv) as [m2|] eqn:Hmove; [|done]. simpl.
    intros [= <-]. eapply state_of_step; [by apply IH|done].
Qed.

Lemma key_of_player m p : player_at m p → (key_of m).1 = p.
Proof. intros [Hs _]. unfold key_of. simpl. by rewrite Hs. Qed.

Lemma key_of_boxes m x :
  x ∈ (key_of m).2 ↔ x ∈ (get_player_and_boxes_positions m).2.
Proof. unfold key_of. simpl. apply sorted_elem. Qed.

Lemma bool_iff_eq (b1 b2 : bool) : (b1 ↔ b2) → b1 = b2.
Proof. destruct b1, b2; simpl; intuition. Qed.

Lemma player_char_at m p r c ch :
  player_at m p → get m r c = Some ch → is_player_char ch ↔ (r, c) = p.
Proof.
  intros Hp Hg. split; [by apply Hp|]. intros <-.
  destruct (player_at_cell _ _ Hp) as (ch' & Hg' & Hc). simpl in *. congruence.
Qed.

Lemma key_of_inj m0 m1 m2 :
  state_of m0 m1 → state_of m0 m2 → key_of m1 = key_of m2 → m1 = m2.
Proof.
  intros [[Hsh1 Hc1] [p1 Hp1]] [[Hsh2 Hc2] [p2 Hp2]] Hkey.
  assert (p1 = p2) as <-.
  { by rewrite <-(key_of_player _ _ Hp1), <-(key_of_player _ _ Hp2), Hkey. }
  apply get_ext; [congruence|]. intros r c.
  destruct (Hc1 r c) as (Hg1 & Hm1 & Hf1), (Hc2 r c) as (Hg2 & Hm2 & Hf2).
  destruct (get m1 r c) as [ch1|] eqn:H1, (get m2 r c) as [ch2|] eqn:H2;
    [|destruct (get m0 r c); by simplify_eq/=..|done].
  destruct (movable ch1) eqn:Hmov1.
  - f_equal. apply movable_char_eq; [done|..].
    + destruct (get m0 r c); simpl in *; congruence.
    + apply bool_iff_eq.
      by rewrite (player_char_at _ _ _ _ _ Hp1 H1), (player_char_at _ _ _ _ _ Hp2 H2).
    + apply bool_iff_eq.
      transitivity ((r, c) ∈ (get_player_and_boxes_positions m1).2).
      { rewrite elem_of_boxes, H1. naive_solver. }
      rewrite <-key_of_boxes, Hkey, key_of_boxes, elem_of_boxes, H2. naive_solver.
    + destruct (get m0 r c); simpl in *; congruence.
  - pose proof (Hf1 ch1 eq_refl Hmov1) as H0. rewrite H0 in *. simpl in *.
    apply (Hf2 ch2); [done|congruence].
Qed.

Lemma key_of_step m p bp mv m' p' bp' :
  player_at m p →
  get_player_and_boxes_positions m = (Some p, bp) →
  solver_move m p bp mv = Some (m', p', bp') →
  (p', sorted bp') = key_of m'.
Proof.
  intros Hp Hscan Hsolve.
  destruct (scan_player_cell _ _ _ Hscan) as (chp & Hg & Hc).
  destruct (solver_move_effect _ _ _ _ _ _ _ _ Hg Hc Hsolve) as (-> & _ & _ & Heff).
  pose proof (move_effect_player _ _ _ _ _ _ Heff Hp) as Hp'.
  replace bp with (get_player_and_boxes_positions m).2 in Heff by by rewrite Hscan.
  apply move_effect_boxes in Heff as (Hnd & _ & Hsame).
  unfold key_of. f_equal.
  - destruct Hp' as [-> _]. done.
  - apply sorted_perm, NoDup_Permutation; [done|apply NoDup_boxes|done].
Qed.

Lemma apply_move_solver m p bp mv :
  get_player_and_boxes_positions m = (Some p, bp) →
  apply_move m mv = (λ x, x.1.1) <$> solver_move m p bp mv.
Proof. intros Hscan. unfold apply_move. by rewrite Hscan. Qed.

Lemma solved_for_step goal_positions m p bp mv m' p' bp' :
  get_player_and_boxes_positions m = (Some p, bp) →
  solver_move m p bp mv = Some (m', p', bp') →
  is_level_solved bp' goal_positions = solved_for goal_positions m'.
Proof.
  intros Hscan Hsolve.
  destruct (solver_move_apply _ _ _ _ _ _ _ Hscan Hsolve) as (_ & _ & Hsame).
  by apply is_level_solved_ext.
Qed.

Lemma expanded_mono (goal_positions : list pos) (v v' : gset state_key)
    (m : matrix) :
  v ⊆ v' → expanded goal_positions v m → expanded goal_positions v' m.
Proof.
  intros Hsub Hexp mv m' Hmove.
  destruct (Hexp mv m' Hmove) as [?|?]; [left; set_solver|by right].
Qed.

Lemma two_levels_head n e queue e' :
  two_levels n (e :: queue) → e' ∈ e :: queue →
  (length e.2 ≤ length e'.2 ≤ S (length e.2))%nat.
Proof.
  intros (front & back & Hq & Hf & Hb) He'.
  rewrite Hq in He'. apply elem_of_app in He' as [He'|He'].
  - rewrite Forall_forall in Hf. pose proof (Hf _ He') as H'.
    destruct front as [|e0 front]; [by inversion He'|].
    simplify_eq/=. rewrite (Hf e0) by left. lia.
  - rewrite Forall_forall in Hb. pose proof (Hb _ He') as H'.
    destruct front as [|e0 front]; simplify_eq/=.
    + rewrite (Hb e) by left. lia.
    + rewrite Forall_forall in Hf. rewrite (Hf e0) by left. lia.
Qed.

Lemma two_levels_step n e queue new :
  two_levels n (e :: queue) →
  Forall (λ e', length e'.2 = S (length e.2)) new →
  ∃ n', two_levels n' (queue ++ new).
Proof.
  intros (front & back & Hq & Hf & Hb) Hnew.
  destruct front as [|e0 front]; simplify_eq/=.
  - apply Forall_cons in Hb as [He Hb]. exists (S n), queue, new.
    split_and!; [done|done|]. eapply Forall_impl; [done|]. simpl. intros. congruence.
  - apply Forall_cons in Hf as [He Hf]. exists n, front, (back ++ new).
    split_and!; [by rewrite app_assoc|done|].
    apply Forall_app. split; [done|].
    eapply Forall_impl; [done|]. simpl. intros. congruence.
Qed.

Lemma replay_snoc m path mv :
  replay m (path ++ [mv]) = replay m path ≫= λ m1, apply_move m1 mv.
Proof.
  rewrite replay_app. destruct (replay m path) as [m1|]; [|done]. simpl.
  by destruct (apply_move m1 mv).
Qed.

Lemma replay_take m path m' j :
  replay m path = Some m' → is_Some (replay m (take j path)).
Proof.
  rewrite <-(take_drop j path) at 1. rewrite replay_app.
  destruct (replay m (take j path)); [eauto|done].
Qed.

Lemma replay_take_S m path j s mv :
  path !! j = Some mv →
  replay m (take j path) = Some s →
  replay m (take (S j) path) = apply_move s mv.
Proof.
  intros Hmv Hs. rewrite (take_S_r _ _ _ Hmv), replay_snoc, Hs. done.
Qed.

Lemma unpruned_clear m path j s :
  unpruned m path = true → (0 < j < length path)%nat →
  replay m (take j path) = Some s → has_deadlock s = false.
Proof.
  revert m j. induction path as [|mv path IH]; intros m j Hun Hj; simpl in *; [lia|].
  destruct j as [|j]; [lia|]. simpl.
  destruct (apply_move m mv) as [m1|]; [|done]. simpl.
  destruct path as [|mv' path]; [simpl in *; lia|].
  apply andb_true_iff in Hun as [Hd Hun]. apply negb_true_iff in Hd.
  destruct j as [|j].
  - intros [= <-]. done.
  - apply IH; [done|simpl in *; lia].
Qed.

Section search.
Variable m0 : matrix.
Variable goal_positions : list pos.
Hypothesis one_player : count_cells is_player_char m0 = 1%nat.

Lemma try_move_found cm pp bp path queue visited mv found :
  try_move goal_positions cm pp bp path (Going queue visited) mv = Found found →
  length found = S (length path).
Proof.
  unfold try_move. intros H. repeat case_match; simplify_eq.
  rewrite length_app. simpl. lia.
Qed.

Lemma try_moves_Found cm pp bp path found mvs :
  foldl (try_move goal_positions cm pp bp path) (Found found) mvs = Found found.
Proof. induction mvs; cbn [foldl]; auto. Qed.

Lemma try_moves_found cm pp bp path queue visited mvs found :
  foldl (try_move goal_positions cm pp bp path) (Going queue visited) mvs
  = Found found →
  length found = S (length path).
Proof.
  revert queue visited. induction mvs as [|mv mvs IH]; intros queue visited; [done|].
  cbn [foldl].
  destruct (try_move goal_positions cm pp bp path (Going queue visited) mv)
    as [found'|queue' visited'] eqn:Hstep.
  - rewrite try_moves_Found. intros [= <-]. by eapply try_move_found.
  - apply IH.
Qed.

Lemma try_move_going cm pp bp path queue visited mv queue' visited' :
  player_at cm pp →
  get_player_and_boxes_positions cm = (Some pp, bp) →
  try_move goal_positions cm pp bp path (Going queue visited) mv
  = Going queue' visited' →
  round goal_positions cm path [mv] queue visited queue' visited'.
Proof.
  intros Hp Hscan. unfold try_move, round.
  destruct (solver_move cm pp bp mv) as [[[m' p'] bp']|] eqn:Hsolve.
  2: { intros [= <- <-]. exists []. rewrite app_nil_r.
       split_and!; [done|done|by left|done|].
       intros ?? ->%list_elem_of_singleton.
       by rewrite (apply_move_solver _ _ _ _ Hscan), Hsolve. }
  rewrite (key_of_step _ _ _ _ _ _ _ Hp Hscan Hsolve),
    (solved_for_step goal_positions _ _ _ _ _ _ _ Hscan Hsolve).
  case_bool_decide as Hvis.
  { intros [= <- <-]. exists []. rewrite app_nil_r.
    split_and!; [done|done|by left|done|]. intros ?? ->%list_elem_of_singleton.
    rewrite (apply_move_solver _ _ _ _ Hscan), Hsolve. intros [= <-]. by left. }
  destruct (solved_for goal_positions m') eqn:Hsolved; [done|].
  destruct (has_deadlock m') eqn:Hdead.
  { intros [= <- <-]. exists []. rewrite app_nil_r.
    split_and!; [done|done|by left|done|]. intros ?? ->%list_elem_of_singleton.
    rewrite (apply_move_solver _ _ _ _ Hscan), Hsolve. intros [= <-]. by right. }
  intros [= <- <-]. exists [(m', path ++ [mv])].
  split_and!; [done|set_solver| |..].
  - intros k [->%elem_of_singleton|?]%elem_of_union; [right|by left].
    exists (m', path ++ [mv]). split; [left|done].
  - apply Forall_singleton. simpl. split_and!; [|done|set_solver].
    exists mv. rewrite (apply_move_solver _ _ _ _ Hscan), Hsolve. done.
  - intros ?? ->%list_elem_of_singleton.
    rewrite (apply_move_solver _ _ _ _ Hscan), Hsolve. intros [= <-].
    left. set_solver.
Qed.

Lemma round_app cm path mvs1 mvs2 q0 v0 q1 v1 q2 v2 :
  round goal_positions cm path mvs1 q0 v0 q1 v1 →
  round goal_positions cm path mvs2 q1 v1 q2 v2 →
  round goal_positions cm path (mvs1 ++ mvs2) q0 v0 q2 v2.
Proof.
  intros (new1 & -> & Hsub1 & Hkeys1 & Hnew1 & Hall1)
         (new2 & -> & Hsub2 & Hkeys2 & Hnew2 & Hall2).
  exists (new1 ++ new2). split_and!.
  - by rewrite app_assoc.
  - set_solver.
  - intros k Hk. destruct (Hkeys2 k Hk) as [Hk1|(e & He & Hke)].
    + destruct (Hkeys1 k Hk1) as [?|(e & He & Hke)]; [by left|].
      right. exists e. split; [apply elem_of_app; by left|done].
    + right. exists e. split; [apply elem_of_app; by right|done].
  - apply Forall_app. split; [|done].
    eapply Forall_impl; [done|]. simpl. intros e (? & ? & ?). split_and!; [done..|set_solver].
  - intros mv m' [Hmv|Hmv]%elem_of_app Hmove.
    + destruct (Hall1 mv m' Hmv Hmove) as [?|?]; [left; set_solver|by right].
    + by apply (Hall2 mv m').
Qed.

Lemma try_moves_going cm pp bp path mvs queue visited queue' visited' :
  player_at cm pp →
  get_player_and_boxes_positions cm = (Some pp, bp) →
  foldl (try_move goal_positions cm pp bp path) (Going queue visited) mvs
  = Going queue' visited' →
  round goal_positions cm path mvs queue visited queue' visited'.
Proof.
  intros Hp Hscan. revert queue visited.
  induction mvs as [|mv mvs IH]; intros queue visited; cbn [foldl].
  { intros [= <- <-]. exists []. rewrite app_nil_r.
    split_and!; [done|done|by left|done|]. intros ?? H. by inversion H. }
  destruct (try_move goal_positions cm pp bp path (Going queue visited) mv)
    as [found|queue1 visited1] eqn:Hstep.
  { by rewrite try_moves_Found. }
  intros Hrest. apply (round_app _ _ [mv] mvs _ _ queue1 visited1).
  - by eapply try_move_going.
  - by apply IH.
Qed.

Lemma search_inv_step cm cpath pp bp queue visited queue' visited' :
  get_player_and_boxes_positions cm = (Some pp, bp) →
  search_inv m0 goal_positions ((cm, cpath) :: queue) visited →
  round goal_positions cm cpath MOVES queue visited queue' visited' →
  search_inv m0 goal_positions queue' visited'
  ∧ expanded goal_positions visited' cm
  ∧ visited ⊆ visited'
  ∧ (∀ e, e ∈ queue → e ∈ queue')
  ∧ ∀ e, e ∈ queue' → (length e.2 ≤ S (length cpath))%nat.
Proof.
  intros Hscan (Hq & [n Hlev] & Hvis) (new & -> & Hsub & Hkeys & Hnew & Hall).
  apply Forall_cons in Hq as [[Hcm Hcmv] Hq]. simpl in *.
  assert (expanded goal_positions visited' cm) as Hexp.
  { intros mv m' Hmove. apply (Hall mv m'); [|done]. destruct mv; set_solver. }
  assert (Forall (λ e, replay m0 e.2 = Some e.1) new) as Hreplay.
  { eapply Forall_impl; [done|]. simpl. intros e ((mv & -> & Hmove) & _).
    by rewrite replay_snoc, Hcm. }
  assert (Forall (λ e : matrix * list move, length e.2 = S (length (cm, cpath).2)) new)
    as Hlen.
  { eapply Forall_impl; [apply Hnew|]. simpl. intros e ((mv & -> & _) & _).
    rewrite length_app. simpl. lia. }
  split_and!; [split_and!|done|done|..].
  - apply Forall_app. split.
    + eapply Forall_impl; [done|]. simpl. intros e [? ?]. split; [done|set_solver].
    + rewrite Forall_forall in Hnew, Hreplay. apply Forall_forall. intros e He.
      split; [by apply Hreplay|by apply Hnew].
  - by eapply two_levels_step.
  - intros m Hm Hk. destruct (Hkeys _ Hk) as [Hold|(e & He & Hkey)].
    + destruct (Hvis m Hm Hold) as [Hs [(path & [[= -> ->]|Hin]%elem_of_cons)|Hexp']].
      * split; [done|]. by right.
      * split; [done|]. left. exists path. apply elem_of_app. by left.
      * split; [done|]. right. by eapply expanded_mono.
    + rewrite Forall_forall in Hnew, Hreplay.
      assert (m = e.1) as ->.
      { eapply key_of_inj; [done| |done].
        eapply state_of_replay; [done|]. by apply Hreplay. }
      destruct (Hnew e He) as (_ & Hs & _). split; [done|]. left. exists e.2.
      apply elem_of_app. right. by destruct e.
  - intros e He. apply elem_of_app. by left.
  - intros e [He|He]%elem_of_app.
    + apply (two_levels_head _ _ _ e) in Hlev; [|by right]. simpl in Hlev. lia.
    + rewrite Forall_forall in Hlen. rewrite (Hlen e He). simpl. lia.
Qed.

Variable track : list move.
Variable final : matrix.
Hypothesis track_replay : replay m0 track = Some final.
Hypothesis track_solved : solved_for goal_positions final = true.
Hypothesis track_clear :
  ∀ j sj, (0 < j < length track)%nat →
          replay m0 (take j track) = Some sj → has_deadlock sj = false.

Lemma track_next j sj :
  (j < length track)%nat → replay m0 (take j track) = Some sj →
  ∃ mv s', apply_move sj mv = Some s' ∧ replay m0 (take (S j) track) = Some s'.
Proof.
  intros Hj Hsj. destruct (lookup_lt_is_Some_2 track j Hj) as [mv Hmv].
  destruct (replay_take _ _ _ (S j) track_replay) as [s' Hs'].
  exists mv, s'. split; [|done]. by rewrite <-(replay_take_S _ _ _ _ _ Hmv Hsj).
Qed.

(** Once a state of the track is expanded, the search holds the next one. *)
Lemma track_chain queue visited bound d i j si :
  search_inv m0 goal_positions queue visited →
  (∀ e, e ∈ queue → (length e.2 ≤ S bound)%nat) →
  (i + d = j)%nat → (j < length track)%nat → (bound ≤ i)%nat →
  replay m0 (take i track) = Some si →
  expanded goal_positions visited si →
  ∀ sj, replay m0 (take j track) = Some sj →
    expanded goal_positions visited sj
    ∨ ∃ i si path, (i ≤ j)%nat ∧ replay m0 (take i track) = Some si
                   ∧ (si, path) ∈ queue ∧ (length path ≤ i)%nat.
Proof.
  intros Hinv Hbound. revert i si.
  induction d as [|d IH]; intros i si Hij Hj Hi Hsi Hexp sj Hsj.
  { assert (i = j) as Hi' by lia. rewrite Hi', Hsj in Hsi. injection Hsi as <-.
    by left. }
  destruct (track_next i si) as (mv & s' & Hmove & Hs'); [lia|done|].
  destruct (Hexp mv s' Hmove) as [Hk|[_ Hdead]].
  2: { rewrite (track_clear (S i) s') in Hdead; [done|lia|done]. }
  destruct Hinv as (_ & _ & Hvis).
  destruct (Hvis s') as [_ [[path Hin]|Hexp']]; [by eapply state_of_replay|done|..].
  - right. exists (S i), s', path. split_and!; [lia|done|done|].
    apply Hbound in Hin. simpl in Hin. lia.
  - eapply (IH (S i) s'); [lia|done|lia|done|done|done].
Qed.

Lemma on_track_step cm cpath pp bp queue visited queue' visited' :
  get_player_and_boxes_positions cm = (Some pp, bp) →
  search_inv m0 goal_positions ((cm, cpath) :: queue) visited →
  on_track m0 goal_positions track ((cm, cpath) :: queue) visited →
  round goal_positions cm cpath MOVES queue visited queue' visited' →
  on_track m0 goal_positions track queue' visited'.
Proof.
  intros Hscan Hinv Htrack Hround.
  destruct (search_inv_step _ _ _ _ _ _ _ _ Hscan Hinv Hround)
    as (Hinv' & Hexp & Hsub & Hkeep & Hbound).
  intros j sj Hj Hsj.
  destruct (Htrack j sj Hj Hsj) as [Hexp'|(i & si & path & Hi & Hsi & Hin & Hlen)].
  { left. by eapply expanded_mono. }
  apply elem_of_cons in Hin as [[= -> ->]|Hin].
  - eapply (track_chain _ _ (length cpath) (j - i) i j); [done|done|lia|done..].
  - right. exists i, si, path. split_and!; [done|done|by apply Hkeep|done].
Qed.

Lemma bfs_loop_shortest fuel queue visited path :
  track ≠ [] →
  search_inv m0 goal_positions queue visited →
  on_track m0 goal_positions track queue visited →
  bfs_loop fuel goal_positions queue visited = Some path →
  (length path ≤ length track)%nat.
Proof.
  intros Hne. revert queue visited.
  induction fuel as [|fuel IH]; intros queue visited Hinv Htrack; [done|].
  rewrite bfs_loop_S. destruct queue as [|[cm cpath] queue]; [done|].
  destruct (get_player_and_boxes_positions cm) as [[pp|] bp] eqn:Hscan; [|done].
  assert (player_at cm pp) as Hp.
  { destruct Hinv as (Hq & _). apply Forall_cons in Hq as [[Hcm _] _].
    destruct (state_of_replay _ _ _ one_player Hcm) as [_ [p Hp]].
    by rewrite (player_at_scan _ _ _ _ Hp Hscan). }
  destruct (foldl _ _ MOVES) as [found|queue' visited'] eqn:Hfold.
  - intros [= ->]. rewrite (try_moves_found _ _ _ _ _ _ _ _ Hfold).
    assert (length track - 1 < length track)%nat as Hlast
        by (destruct track; [done|simpl; lia]).
    destruct (replay_take _ _ _ (length track - 1) track_replay) as [s Hs].
    destruct (Htrack _ s Hlast Hs) as [Hexp|(i & si & p & Hi & Hsi & Hin & Hlen)].
    + destruct (track_next _ _ Hlast Hs) as (mv & s' & Hmove & Hs').
      replace (S (length track - 1)) with (length track) in Hs' by lia.
      rewrite firstn_all, track_replay in Hs'. simplify_eq.
      destruct (Hexp mv s' Hmove) as [Hk|[Hsol _]]; [|congruence].
      destruct Hinv as (_ & _ & Hvis).
      destruct (Hvis s') as [Hsol _]; [by eapply state_of_replay|done|congruence].
    + destruct Hinv as (_ & [n Hlev] & _).
      apply (two_levels_head _ _ _ (si, p)) in Hlev; [|done]. simpl in Hlev. lia.
  - apply try_moves_going in Hfold; [|done..].
    destruct (search_inv_step _ _ _ _ _ _ _ _ Hscan Hinv Hfold) as (Hinv' & _).
    apply IH; [done|]. by eapply on_track_step.
Qed.

End search.

Lemma solved_for_replay m path m' :
  replay m path = Some m' →
  solved_for (get_goal_positions m) m' = is_solved m'.
Proof.
  intros Hr. apply is_level_solved_ext; [done|].
  intros x. symmetry. by eapply replay_goals.
Qed.

(** X2. On a grid with exactly one player marker, a path the solver returns
    is no longer than any move sequence that solves the grid and whose
    states after the first move and before the last are not flagged by
    [has_deadlock]: the search is breadth-first over the states it does not
    prune. *)
Theorem solve_shortest_among_unpruned m max_iterations path track final :
  count_cells is_player_char m = 1%nat →
  solve_sokoban_bfs m max_iterations = Some path →
  replay m track = Some final → is_solved final = true →
  unpruned m track = true →
  (length path ≤ length track)%nat.
Proof.
  intros Hone Hsolve Hr Hsolved Hun. unfold solve_sokoban_bfs in Hsolve.
  destruct (get_player_and_boxes_positions m) as [[p0|] bp0] eqn:Hscan; [|done].
  destruct (_ || _); [done|].
  destruct (is_level_solved bp0 (get_goal_positions m)) eqn:Hinit.
  { simplify_eq. simpl. lia. }
  assert (solved_for (get_goal_positions m) m = false) as Hinit'.
  { unfold solved_for. by rewrite Hscan. }
  assert ((p0, sorted bp0) = key_of m) as Hkey.
  { unfold key_of. by rewrite Hscan. }
  rewrite Hkey in Hsolve.
  eapply (bfs_loop_shortest m (get_goal_positions m) Hone track final);
    [done|by rewrite (solved_for_replay _ _ _ Hr)| | | | |done].
  - intros j sj Hj. by apply unpruned_clear.
  - intros ->. simpl in Hr. injection Hr as <-. unfold is_solved in Hsolved.
    rewrite Hscan in Hsolved. simpl in Hsolved. congruence.
  - split_and!.
    + apply Forall_singleton. simpl. split; [done|set_solver].
    + exists 0%nat, [(m, [])], []. split_and!; [done| |done]. by apply Forall_singleton.
    + intros m1 Hm1 ->%elem_of_singleton%(key_of_inj m); [|done|by apply state_of_init].
      split; [done|]. left. exists []. left.
  - intros j sj Hj Hsj. right. exists 0%nat, m, []. split_and!; [lia|done|left|done].
Qed.

(** The restriction to unflagged states cannot be dropped: on
    [detour_level] the solver returns a path of 13 moves while 5 moves solve
    the grid; the state after the first of the 5, a push to the right, is
    flagged by [has_deadlock]. *)
Lemma solve_takes_detour :
  solve_sokoban_bfs detour_level DEFAULT_MAX_ITERATIONS = Some detour_path
  ∧ (is_solved <$> replay detour_level direct_path) = Some true
  ∧ (length direct_path < length detour_path)%nat
  ∧ (has_deadlock <$> replay detour_level [R]) = Some true.
Proof. split_and!; [by vm_compute..|simpl; lia|by vm_compute]. Qed.

Lemma solve_shortest_among_unpruned_witness :
  count_cells is_player_char detour_level = 1%nat
  ∧ solve_sokoban_bfs detour_level DEFAULT_MAX_ITERATIONS = Some detour_path
  ∧ (is_solved <$> replay detour_level ([U; D] ++ detour_path)) = Some true
  ∧ unpruned detour_level ([U; D] ++ detour_path) = true
  ∧ (length detour_path ≤ length ([U; D] ++ detour_path))%nat.
Proof.
  split_and!; [by vm_compute..|].
  apply (solve_shortest_among_unpruned detour_level DEFAULT_MAX_ITERATIONS
           detour_path _ (default [] (replay detour_level ([U; D] ++ detour_path))));
    vm_compute; reflexivity.
Defined.

(** ** The solver: more of its behaviour *)

(** ** The solver: more of its behaviour, lemmas *)

Lemma try_moves_inv (Pq : matrix * list move → Prop) (Pf : list move → Prop)
    (goal_positions : list pos) (cm : matrix) (pp : pos) (bp : list pos)
    (path : list move) (acc : scan_result) (mvs : list move) :
  (∀ mv m' p' bp', solver_move cm pp bp mv = Some (m', p', bp') →
     if is_level_solved bp' goal_positions
     then Pf (path ++ [mv]) else Pq (m', path ++ [mv])) →
  match acc with Found f => Pf f | Going q _ => Forall Pq q end →
  match foldl (try_move goal_positions cm pp bp path) acc mvs with
  | Found f => Pf f
  | Going q _ => Forall Pq q
  end.
Proof.
  intros Hstep. revert acc. induction mvs as [|mv mvs IH]; intros acc Hacc; [done|].
  cbn [foldl]. apply IH. destruct acc as [f|q v]; [done|]. unfold try_move.
  destruct (solver_move cm pp bp mv) as [[[m' p'] bp']|] eqn:Hmove; [|done].
  specialize (Hstep _ _ _ _ Hmove).
  case_bool_decide; [done|].
  destruct (is_level_solved bp' goal_positions); [done|].
  destruct (has_deadlock m'); [done|]. apply Forall_app. split; [done|].
  by apply Forall_singleton.
Qed.

Lemma bfs_loop_inv (Pq : nat → matrix * list move → Prop) (Pf : list move → Prop)
    (goal_positions : list pos) :
  (∀ f e, Pq (S f) e → Pq f e) →
  (∀ f cm cpath pp bp mv m' p' bp',
     Pq (S f) (cm, cpath) →
     get_player_and_boxes_positions cm = (Some pp, bp) →
     solver_move cm pp bp mv = Some (m', p', bp') →
     if is_level_solved bp' goal_positions
     then Pf (cpath ++ [mv]) else Pq f (m', cpath ++ [mv])) →
  ∀ fuel queue visited path,
    Forall (Pq fuel) queue →
    bfs_loop fuel goal_positions queue visited = Some path → Pf path.
Proof.
  intros Hweak Hstep fuel. induction fuel as [|fuel IH]; intros queue visited path Hq;
    [done|].
  rewrite bfs_loop_S. destruct queue as [|[cm cpath] queue]; [done|].
  destruct (get_player_and_boxes_positions cm) as [[pp|] bp] eqn:Hscan; [|done].
  apply Forall_cons in Hq as [Hcm Hq].
  pose proof (try_moves_inv (Pq fuel) Pf goal_positions cm pp bp cpath
                (Going queue visited) MOVES) as Hfold.
  destruct (foldl _ _ MOVES) as [f|queue' visited'].
  - intros [= <-]. apply Hfold.
    + intros mv m' p' bp' Hmove. by apply (Hstep fuel cm cpath pp bp mv m' p' bp').
    + eapply Forall_impl; [done|]. by intros; apply Hweak.
  - apply IH. apply Hfold.
    + intros mv m' p' bp' Hmove. by apply (Hstep fuel cm cpath pp bp mv m' p' bp').
    + eapply Forall_impl; [done|]. by intros; apply Hweak.
Qed.

Lemma bfs_loop_more fuel extra goal_positions queue visited path :
  bfs_loop fuel goal_positions queue visited = Some path →
  bfs_loop (fuel + extra) goal_positions queue visited = Some path.
Proof.
  revert queue visited. induction fuel as [|fuel IH]; intros queue visited; [done|].
  replace (S fuel + extra)%nat with (S (fuel + extra)) by lia.
  rewrite !bfs_loop_S. destruct queue as [|[cm cpath] queue]; [done|].
  destruct (get_player_and_boxes_positions cm) as [[pp|] bp]; [|done].
  destruct (foldl _ _ MOVES) as [f|queue' visited']; [done|]. apply IH.
Qed.

Lemma unsolved_along_snoc m0 goal_positions path mv m' :
  unsolved_along m0 goal_positions path →
  replay m0 (path ++ [mv]) = Some m' →
  solved_for goal_positions m' = false →
  unsolved_along m0 goal_positions (path ++ [mv]).
Proof.
  intros Hpath Hr Hs j s Hj. rewrite length_app in Hj. simpl in Hj.
  destruct (decide (j ≤ length path)%nat) as [Hle|Hgt].
  - rewrite take_app_le by done. by apply Hpath.
  - rewrite take_ge by (rewrite length_app; simpl; lia). congruence.
Qed.

(** X1. Every path the solver returns can be replayed move by move from the
    grid it was given, no move of it is rejected, and the grid it ends in is
    solved. *)
Theorem solver_path_solves m max_iterations path :
  solve_sokoban_bfs m max_iterations = Some path →
  ∃ m', replay m path = Some m' ∧ is_solved m' = true.
Proof. apply solve_sound. Qed.

Lemma solver_path_solves_witness :
  solve_sokoban_bfs fallback_1 DEFAULT_MAX_ITERATIONS = Some [R; R; L; L; D; R; R]
  ∧ ∃ m', replay fallback_1 [R; R; L; L; D; R; R] = Some m' ∧ is_solved m' = true.
Proof.
  assert (solve_sokoban_bfs fallback_1 DEFAULT_MAX_ITERATIONS
          = Some [R; R; L; L; D; R; R]) as H by (by vm_compute).
  split; [exact H|]. exact (solver_path_solves _ _ _ H).
Defined.

(** X3. When the number of box cells differs from the number of goal cells
    (a player standing on a goal counts as a goal), the solver returns no
    path, whatever its budget. *)
Theorem solve_none_unequal_counts m max_iterations :
  count_cells is_box_char m ≠ count_cells is_goal_char m →
  solve_sokoban_bfs m max_iterations = None.
Proof.
  intros Hne. destruct (solve_sokoban_bfs m max_iterations) as [path|] eqn:Hs; [|done].
  apply solve_needs_equal_counts in Hs. by rewrite count_boxes, count_goals in Hs.
Qed.

Lemma solve_none_unequal_counts_witness :
  count_cells is_box_char two_boxes_one_goal
    ≠ count_cells is_goal_char two_boxes_one_goal
  ∧ solve_sokoban_bfs two_boxes_one_goal 5 = None.
Proof.
  assert (count_cells is_box_char two_boxes_one_goal
          ≠ count_cells is_goal_char two_boxes_one_goal) as H by (by vm_compute).
  split; [exact H|]. exact (solve_none_unequal_counts _ 5 H).
Defined.

(** X4. A larger iteration budget never changes an answer already found:
    a path returned with budget [n] is returned with every budget above
    [n]. *)
Theorem solve_budget_monotone m n n' path :
  n ≤ n' →
  solve_sokoban_bfs m n = Some path → solve_sokoban_bfs m n' = Some path.
Proof.
  intros Hn. unfold solve_sokoban_bfs.
  destruct (get_player_and_boxes_positions m) as [[pp|] bp]; [|done].
  destruct (_ || _); [done|].
  destruct (is_level_solved _ _); [done|].
  replace (Z.to_nat n') with (Z.to_nat n + (Z.to_nat n' - Z.to_nat n))%nat by lia.
  apply bfs_loop_more.
Qed.

Lemma solve_budget_monotone_witness :
  3 ≤ 50
  ∧ solve_sokoban_bfs fallback_0 3 = Some [D; R]
  ∧ solve_sokoban_bfs fallback_0 50 = Some [D; R].
Proof.
  assert (solve_sokoban_bfs fallback_0 3 = Some [D; R]) as H by (by vm_compute).
  split_and!; [lia|exact H|]. by apply (solve_budget_monotone fallback_0 3 50); [lia|].
Defined.

(** X5. A path the solver returns has at most [max_iterations] moves: the
    path of a dequeued state is one move longer than the path of the state
    it was reached from. *)
Theorem solve_path_within_budget m max_iterations path :
  solve_sokoban_bfs m max_iterations = Some path →
  Z.of_nat (length path) ≤ Z.max 0 max_iterations.
Proof.
  unfold solve_sokoban_bfs.
  destruct (get_player_and_boxes_positions m) as [[pp|] bp]; [|done].
  destruct (_ || _); [done|].
  destruct (is_level_solved _ _); [intros [= <-]; simpl; lia|].
  intros Hloop.
  enough (length path ≤ Z.to_nat max_iterations)%nat by lia.
  revert Hloop.
  apply (bfs_loop_inv
           (λ f e, (length e.2 + f ≤ Z.to_nat max_iterations)%nat)
           (λ p, (length p ≤ Z.to_nat max_iterations)%nat)).
  - simpl. intros. lia.
  - simpl. intros f cm cpath ????????. rewrite length_app. simpl.
    destruct (is_level_solved _ _); lia.
  - apply Forall_singleton. simpl. lia.
Qed.

Lemma solve_path_within_budget_witness :
  solve_sokoban_bfs fallback_0 3 = Some [D; R]
  ∧ Z.of_nat (length [D; R]) ≤ Z.max 0 3.
Proof.
  assert (solve_sokoban_bfs fallback_0 3 = Some [D; R]) as H by (by vm_compute).
  split; [exact H|]. exact (solve_path_within_budget _ _ _ H).
Defined.

Lemma solved_for_is_solved m path s :
  replay m path = Some s →
  is_solved s = solved_for (get_goal_positions m) s.
Proof. intros Hr. symmetry. by eapply solved_for_replay. Qed.

(** X6. The last move of a returned path is the first to solve the grid: no
    state reached by a shorter prefix of the path is solved. *)
Theorem solver_path_first_solves m max_iterations path j s :
  solve_sokoban_bfs m max_iterations = Some path →
  (j < length path)%nat →
  replay m (take j path) = Some s →
  is_solved s = false.
Proof.
  unfold solve_sokoban_bfs.
  destruct (get_player_and_boxes_positions m) as [[pp|] bp] eqn:Hscan; [|done].
  destruct (_ || _); [done|].
  destruct (is_level_solved bp (get_goal_positions m)) eqn:Hinit.
  { intros [= <-]. simpl. lia. }
  intros Hloop Hj Hs. rewrite (solved_for_is_solved _ _ _ Hs).
  revert Hloop j s Hj Hs.
  set (goals := get_goal_positions m).
  intros Hloop.
  enough (∃ init mv, path = init ++ [mv] ∧ unsolved_along m goals init)
    as (init & mv & -> & Hinit').
  { intros j s Hj Hs. rewrite length_app in Hj. simpl in Hj.
    rewrite take_app_le in Hs by lia. apply (Hinit' j s); [lia|done]. }
  revert Hloop.
  apply (bfs_loop_inv
           (λ _ e, replay m e.2 = Some e.1 ∧ unsolved_along m goals e.2)
           (λ p, ∃ init mv, p = init ++ [mv] ∧ unsolved_along m goals init)).
  - done.
  - simpl. intros _ cm cpath pp' bp' mv m' p'' bp'' [Hr Hun] Hscan' Hmove.
    destruct (is_level_solved bp'' goals) eqn:Hsol; [by eauto|].
    destruct (solver_move_apply _ _ _ _ _ _ _ Hscan' Hmove) as (Happ & _ & _).
    assert (replay m (cpath ++ [mv]) = Some m') as Hr'.
    { by rewrite replay_snoc, Hr. }
    split; [done|]. eapply unsolved_along_snoc; [done..|].
    by rewrite <-(solved_for_step goals _ _ _ _ _ _ _ Hscan' Hmove).
  - apply Forall_singleton. simpl. split; [done|].
    intros j s Hj. replace j with 0%nat by (simpl in Hj; lia). simpl.
    intros [= <-]. unfold solved_for. by rewrite Hscan.
Qed.

Lemma solver_path_first_solves_witness :
  solve_sokoban_bfs fallback_0 DEFAULT_MAX_ITERATIONS = Some [D; R]
  ∧ (1 < length [D; R])%nat
  ∧ ∃ s, replay fallback_0 (take 1 [D; R]) = Some s ∧ is_solved s = false.
Proof.
  assert (solve_sokoban_bfs fallback_0 DEFAULT_MAX_ITERATIONS = Some [D; R]) as H
    by (by vm_compute).
  split_and!; [exact H|simpl; lia|].
  destruct (replay fallback_0 (take 1 [D; R])) as [s|] eqn:Hs; [|by vm_compute in Hs].
  exists s. split; [done|].
  apply (solver_path_first_solves fallback_0 DEFAULT_MAX_ITERATIONS [D; R] 1 s);
    [exact H|simpl; lia|exact Hs].
Defined.
